(** * objects/match.py: slots, matches and the match broadcasts

    A shallow embedding of [src/objects/match.py].  Python objects become
    records, [Optional[X]] becomes [option X], the [IntEnum]s become
    inductive types with their integer [value], and the methods that mutate
    [self] or call into a channel run in a small reader/state/writer/error
    monad over the match object and the list of [Channel.enqueue] calls. *)

From Stdlib Require Import Ascii.
From stdpp Require Import base numbers option list strings pretty gmap.

Open Scope Z_scope.

#[local] Set Warnings "-clear-no-such-hyp".

(** Truth value of a Python [int]. *)
Definition truthy (z : Z) : bool := negb (z =? 0).

(** ** Enumerations *)

Module SlotStatus.
Inductive t : Set :=
| open | locked | not_ready | ready | no_map | playing | complete | quit
| has_player.

(** The integer carried by each member.  [has_player] is written in the
    class body as the bitwise or of five members, which also makes it a
    ninth member of the enumeration (its value, 124, is not taken). *)
Definition value (s : t) : Z :=
  match s with
  | open => 1
  | locked => 2
  | not_ready => 4
  | ready => 8
  | no_map => 16
  | playing => 32
  | complete => 64
  | quit => 128
  | has_player =>
      Z.lor (Z.lor (Z.lor (Z.lor 4 8) 16) 32) 64
  end.

(** [a == b] on an [IntEnum] compares the integers. *)
Definition eqb (a b : t) : bool := value a =? value b.

(** [a & b] on an [IntEnum] is the integer and. *)
Definition and (a b : t) : Z := Z.land (value a) (value b).

#[global] Instance eq_dec : EqDecision t.
Proof. solve_decision. Defined.
End SlotStatus.

Module Teams.
Inductive t : Set := neutral | blue | red.
Definition value (x : t) : Z :=
  match x with neutral => 0 | blue => 1 | red => 2 end.
#[global] Instance eq_dec : EqDecision t.
Proof. solve_decision. Defined.
End Teams.

Module MatchTypes.
Inductive t : Set := standard | powerplay.
Definition value (x : t) : Z :=
  match x with standard => 0 | powerplay => 1 end.
#[global] Instance eq_dec : EqDecision t.
Proof. solve_decision. Defined.
End MatchTypes.

Module MatchScoringTypes.
Inductive t : Set := score | accuracy | combo | scorev2.
Definition value (x : t) : Z :=
  match x with score => 0 | accuracy => 1 | combo => 2 | scorev2 => 3 end.
#[global] Instance eq_dec : EqDecision t.
Proof. solve_decision. Defined.
End MatchScoringTypes.

Module MatchTeamTypes.
Inductive t : Set := head_to_head | tag_coop | team_vs | tag_team_vs.
Definition value (x : t) : Z :=
  match x with
  | head_to_head => 0 | tag_coop => 1 | team_vs => 2 | tag_team_vs => 3
  end.
#[global] Instance eq_dec : EqDecision t.
Proof. solve_decision. Defined.
End MatchTeamTypes.

(** ** Collaborators that live outside [objects/match.py] *)

(** Modelled from the spec: the participant object ([objects.player] is only
    imported for type checking).  An opaque handle compared by equality,
    with an accessible [id]; two handles may carry the same [id]. *)
Module Player.
Record t : Set := mk { handle : positive; id : Z }.

#[global] Instance eq_dec : EqDecision t.
Proof. solve_decision. Defined.

#[global] Instance countable : Countable t.
Proof.
  apply (inj_countable' (λ p, (handle p, id p)) (λ q, mk q.1 q.2)).
  by intros [].
Defined.
End Player.

(** Modelled from the spec: the beatmap reference ([objects.beatmap]), kept
    as its identity only, and the constants [Mods.NOMOD] and
    [GameMode.vn_std] (no mods selected, first game mode). *)
Definition Beatmap : Set := Z.
Definition Mods_NOMOD : Z := 0.
Definition GameMode_vn_std : Z := 0.

Definition bytes : Set := list Byte.byte.

(** Modelled from the spec: the channel primitive ([objects.channel]).  A
    channel has a name and subscribers; its [enqueue(payload, immune)] is
    recorded as an event, its truth value is that of any Python object. *)
Module Channel.
Record t : Set := mk { name : string; players : list Player.t }.

#[global] Instance eq_dec : EqDecision t.
Proof. solve_decision. Defined.
End Channel.

(** ** Slot *)

Module Slot.
Record t : Set := mk {
  player : option Player.t;
  status : SlotStatus.t;
  team : Teams.t;
  mods : Z;
  loaded : bool;
  skipped : bool
}.

#[global] Instance eq_dec : EqDecision t.
Proof. solve_decision. Defined.

(** [Slot.__init__] *)
Definition __init__ : t :=
  {| player := None; status := SlotStatus.open; team := Teams.neutral;
     mods := Mods_NOMOD; loaded := false; skipped := false |}.

Definition empty (self : t) : bool :=
  match player self with None => true | Some _ => false end.

Definition copy (self s : t) : t :=
  {| player := player s;
     status := status s;
     team := team s;
     mods := mods s;
     loaded := loaded self;
     skipped := skipped self |}.

Definition reset (self : t) : t :=
  {| player := None; status := SlotStatus.open; team := Teams.neutral;
     mods := Mods_NOMOD; loaded := false; skipped := false |}.

(** The assignment [s.status = st]. *)
Definition set_status (st : SlotStatus.t) (s : t) : t :=
  {| player := player s; status := st; team := team s; mods := mods s;
     loaded := loaded s; skipped := skipped s |}.

(** The test [s.status & SlotStatus.has_player]. *)
Definition has_player (s : t) : bool :=
  truthy (SlotStatus.and (status s) SlotStatus.has_player).
End Slot.

(** ** Exceptions, events and the environment of a match *)

(** What a Python call ends in: a value or a raised exception. *)
Inductive outcome (A : Type) : Type :=
| Return (a : A)
| Raise (e : string).
Arguments Return {A} a.
Arguments Raise {A} e.

(** [AttributeError] of reading attribute [attr] on [None]. *)
Definition AttributeError (attr : string) : string :=
  "AttributeError: 'NoneType' object has no attribute '" +:+ attr +:+ "'".

(** [x.attr] where [x] may be [None]. *)
Definition getattr {A : Type} (x : option A) (attr : string) : outcome A :=
  match x with
  | Some a => Return a
  | None => Raise (AttributeError attr)
  end.

(** The calls a match makes into its collaborators, in program order. *)
Inductive event : Type :=
| Breakpoint
| Enqueue (c : Channel.t) (data : bytes) (immune : list Z).

(** ** Match *)

Module Match.
Record t : Type := mk {
  id : Z;
  name : string;
  passwd : string;
  host : option Player.t;
  _refs : gset Player.t;
  bmap : option Beatmap;
  mods : Z;
  freemods : bool;
  mode : Z;
  chat : option Channel.t;
  slots : list Slot.t;
  type : MatchTypes.t;
  team_type : MatchTeamTypes.t;
  match_scoring : MatchScoringTypes.t;
  in_progress : bool;
  seed : Z
}.

(** [Match.__init__] *)
Definition __init__ : t :=
  {| id := 0; name := EmptyString; passwd := EmptyString;
     host := None; _refs := ∅;
     bmap := None;
     mods := Mods_NOMOD; mode := GameMode_vn_std; freemods := false;
     chat := None; slots := replicate 16 Slot.__init__;
     type := MatchTypes.standard;
     team_type := MatchTeamTypes.head_to_head;
     match_scoring := MatchScoringTypes.score;
     in_progress := false; seed := 0 |}.

(** Attribute assignments used by the methods and by their callers. *)
Definition set_slots (ss : list Slot.t) (m : t) : t :=
  {| id := id m; name := name m; passwd := passwd m; host := host m;
     _refs := _refs m; bmap := bmap m; mods := mods m;
     freemods := freemods m; mode := mode m; chat := chat m;
     slots := ss; type := type m; team_type := team_type m;
     match_scoring := match_scoring m; in_progress := in_progress m;
     seed := seed m |}.

Definition set_in_progress (b : bool) (m : t) : t :=
  {| id := id m; name := name m; passwd := passwd m; host := host m;
     _refs := _refs m; bmap := bmap m; mods := mods m;
     freemods := freemods m; mode := mode m; chat := chat m;
     slots := slots m; type := type m; team_type := team_type m;
     match_scoring := match_scoring m; in_progress := b;
     seed := seed m |}.

Definition set_passwd (pw : string) (m : t) : t :=
  {| id := id m; name := name m; passwd := pw; host := host m;
     _refs := _refs m; bmap := bmap m; mods := mods m;
     freemods := freemods m; mode := mode m; chat := chat m;
     slots := slots m; type := type m; team_type := team_type m;
     match_scoring := match_scoring m; in_progress := in_progress m;
     seed := seed m |}.

Definition set_chat (c : option Channel.t) (m : t) : t :=
  {| id := id m; name := name m; passwd := passwd m; host := host m;
     _refs := _refs m; bmap := bmap m; mods := mods m;
     freemods := freemods m; mode := mode m; chat := c;
     slots := slots m; type := type m; team_type := team_type m;
     match_scoring := match_scoring m; in_progress := in_progress m;
     seed := seed m |}.

(** *** Properties and queries *)

Definition url (self : t) : string :=
  "osump://" +:+ pretty (id self) +:+ "/" +:+ passwd self.

Definition embed (self : t) : string :=
  "[" +:+ url self +:+ " " +:+ name self +:+ "]".

(** [{self.host} | self._refs]: [host] may still be [None], so the elements
    are optional players. *)
Definition refs (self : t) : gset (option Player.t) :=
  {[ host self ]} ∪ set_map Some (_refs self).

(** [p in {s.player for s in self.slots}] *)
Definition __contains__ (self : t) (p : option Player.t) : bool :=
  bool_decide (p ∈ (list_to_set (Slot.player <$> slots self)
                      : gset (option Player.t))).

Definition __repr__ (self : t) : string :=
  "<" +:+ name self +:+ " (" +:+ pretty (id self) +:+ ")>".

Fixpoint get_slot_in (p : option Player.t) (ss : list Slot.t)
  : option Slot.t :=
  match ss with
  | [] => None
  | s :: rest =>
      if bool_decide (p = Slot.player s) then Some s
      else get_slot_in p rest
  end.

Definition get_slot (self : t) (p : option Player.t) : option Slot.t :=
  get_slot_in p (slots self).

(** The loops over [enumerate(self.slots)], entered at index [idx]. *)
Fixpoint get_slot_id_from (idx : nat) (p : option Player.t)
  (ss : list Slot.t) : option nat :=
  match ss with
  | [] => None
  | s :: rest =>
      if bool_decide (p = Slot.player s) then Some idx
      else get_slot_id_from (S idx) p rest
  end.

Definition get_slot_id (self : t) (p : option Player.t) : option nat :=
  get_slot_id_from 0 p (slots self).

Fixpoint get_free_from (idx : nat) (ss : list Slot.t) : option nat :=
  match ss with
  | [] => None
  | s :: rest =>
      if SlotStatus.eqb (Slot.status s) SlotStatus.open then Some idx
      else get_free_from (S idx) rest
  end.

Definition get_free (self : t) : option nat :=
  get_free_from 0 (slots self).

(** [get_host_slot]: the condition reads [s.player.id] and then
    [self.host.id], only for a slot that passed the [has_player] test;
    either read raises on [None]. *)
Fixpoint get_host_slot_in (h : option Player.t) (ss : list Slot.t)
  : outcome (option Slot.t) :=
  match ss with
  | [] => Return None
  | s :: rest =>
      if Slot.has_player s then
        match getattr (Slot.player s) "id" with
        | Raise e => Raise e
        | Return p =>
            match getattr h "id" with
            | Raise e => Raise e
            | Return hp =>
                if Player.id p =? Player.id hp then Return (Some s)
                else get_host_slot_in h rest
            end
        end
      else get_host_slot_in h rest
  end.

Definition get_host_slot (self : t) : outcome (option Slot.t) :=
  get_host_slot_in (host self) (slots self).

(** [copy]: the configuration of [m] is taken over, nothing else. *)
Definition copy (self m : t) : t :=
  {| id := id self; name := name m; passwd := passwd self;
     host := host self; _refs := _refs self;
     bmap := bmap m; mods := mods m; freemods := freemods m;
     mode := mode m; chat := chat self; slots := slots self;
     type := type self; team_type := team_type m;
     match_scoring := match_scoring m;
     in_progress := in_progress self; seed := seed self |}.

(** *** The collaborators a broadcasting method calls into

    [packets.updateMatch] and [packets.matchStart] (the protocol encoder),
    the channel directory [glob.channels], looked up by name, and what the
    interpreter's breakpoint hook does when [breakpoint()] is reached: it
    returns (the debugger session is resumed, or the hook is disabled) or it
    raises (the debugger session is quit). *)
Record env : Type := mk_env {
  updateMatch : t → bool → bytes;
  matchStart : t → bytes;
  channels : gmap string Channel.t;
  breakpointhook : outcome unit
}.

(** A method of a match: it reads the collaborators, may assign to [self],
    calls out (the events, in order) and returns or raises; what was
    assigned and sent before a raise stays. *)
Definition meth (A : Type) : Type := env → t → outcome A * t * list event.

#[global] Instance meth_ret : MRet meth := λ A a _ self, (Return a, self, []).

#[global] Instance meth_bind : MBind meth := λ A B f c E self,
  match c E self with
  | (Return a, self1, t1) =>
      let '(r, self2, t2) := f a E self1 in (r, self2, t1 ++ t2)
  | (Raise e, self1, t1) => (Raise e, self1, t1)
  end.

Definition get : meth t := λ _ self, (Return self, self, []).
Definition put (m : t) : meth unit := λ _ _, (Return (), m, []).
Definition ask : meth env := λ E self, (Return E, self, []).
Definition emit (e : event) : meth unit := λ _ self, (Return (), self, [e]).
Definition lift {A : Type} (o : outcome A) : meth A := λ _ self, (o, self, []).

(** [for x in l: ...] with the local variables of the loop in [a]. *)
Fixpoint foldM {A B : Type} (body : A → B → meth A) (l : list B) (a : A)
  : meth A :=
  match l with
  | [] => mret a
  | b :: l' => a' ← body a b; foldM body l' a'
  end.

(** The [i]-th slot object of [self.slots], and an assignment to its
    [status]. *)
Definition slot (i : nat) : meth Slot.t :=
  self ← get;
  match slots self !! i with
  | Some s => mret s
  | None => lift (Raise "IndexError: list index out of range")
  end.

Definition set_status (i : nat) (st : SlotStatus.t) : meth unit :=
  self ← get;
  put (set_slots (alter (Slot.set_status st) i (slots self)) self).

(** The builtin [breakpoint()]. *)
Definition breakpoint : meth unit :=
  emit Breakpoint;;
  E ← ask;
  lift (breakpointhook E).

(** Truth value of [self.chat] (an object or [None]) and of a list. *)
Definition is_set {A : Type} (x : option A) : bool :=
  match x with Some _ => true | None => false end.

Definition nonempty {A : Type} (l : list A) : bool :=
  match l with [] => false | _ :: _ => true end.

(** *** Broadcasts *)

Definition enqueue (data : bytes) (lobby : bool) (immune : list Z)
  : meth unit :=
  self ← get;
  (if negb (is_set (chat self)) then breakpoint else mret ());;
  c ← lift (getattr (chat self) "enqueue");
  emit (Enqueue c data immune);;
  E ← ask;
  if lobby then
    match channels E !! "#lobby" with
    | Some lchan =>
        if nonempty (Channel.players lchan)
        then emit (Enqueue lchan data [])
        else mret ()
    | None => mret ()
    end
  else mret ().

Definition enqueue_state (lobby : bool) : meth unit :=
  self ← get;
  (if negb (is_set (chat self)) then breakpoint else mret ());;
  E ← ask;
  c ← lift (getattr (chat self) "enqueue");
  emit (Enqueue c (updateMatch E self true) []);;
  if lobby then
    match channels E !! "#lobby" with
    | Some lchan =>
        if nonempty (Channel.players lchan)
        then emit (Enqueue lchan (updateMatch E self false) [])
        else mret ()
    | None => mret ()
    end
  else mret ().

(** *** State changes *)

Definition unready_players (expected : SlotStatus.t) : meth unit :=
  self ← get;
  foldM (λ _ i,
    s ← slot i;
    if SlotStatus.eqb (Slot.status s) expected
    then set_status i SlotStatus.not_ready
    else mret ())
    (seq 0 (length (slots self))) ().

Definition start : meth unit :=
  self ← get;
  no_map ← foldM (λ no_map i,
    s ← slot i;
    if Slot.has_player s then
      if negb (SlotStatus.eqb (Slot.status s) SlotStatus.no_map)
      then set_status i SlotStatus.playing;; mret no_map
      else p ← lift (getattr (Slot.player s) "id");
           mret (no_map ++ [Player.id p])
    else mret no_map)
    (seq 0 (length (slots self))) [];
  self ← get;
  put (set_in_progress true self);;
  self ← get;
  E ← ask;
  enqueue (matchStart E self) true no_map;;
  enqueue_state true.
End Match.

(** * Vocabulary of the statements *)

(** The slot passes the [has_player] test and its occupant carries the id
    of [h]. *)
Definition seats (h : Player.t) (s : Slot.t) : Prop :=
  Slot.has_player s = true
  ∧ ∃ p, Slot.player s = Some p ∧ Player.id p = Player.id h.

#[global] Instance seats_dec (h : Player.t) (s : Slot.t) : Decision (seats h s).
Proof.
  unfold seats. destruct (Slot.player s) as [p|].
  - destruct (decide (Slot.has_player s = true));
      [|right; tauto].
    destruct (decide (Player.id p = Player.id h)) as [Hid|Hid].
    + left. eauto.
    + right. intros (_ & q & [= <-] & ?). done.
  - right. by intros (_ & q & [=] & _).
Defined.

(** What the loop body of [unready_players] does to one slot. *)
Definition unready_slot (expected : SlotStatus.t) (s : Slot.t) : Slot.t :=
  if bool_decide (Slot.status s = expected)
  then Slot.set_status SlotStatus.not_ready s
  else s.

(** What the loop of [start] does to one slot, and the id it records. *)
Definition start_slot (s : Slot.t) : Slot.t :=
  if Slot.has_player s && negb (bool_decide (Slot.status s = SlotStatus.no_map))
  then Slot.set_status SlotStatus.playing s
  else s.

Definition exempt (s : Slot.t) : option Z :=
  if bool_decide (Slot.status s = SlotStatus.no_map)
  then Player.id <$> Slot.player s
  else None.

(** The match object once [start] has run its loop and set the flag. *)
Definition started (m : Match.t) : Match.t :=
  Match.set_in_progress true
    (Match.set_slots (start_slot <$> Match.slots m) m).

(** The discovery channel a broadcast also goes to: asked for by [lobby],
    present in the directory under ["#lobby"], and with subscribers. *)
Definition discovery (E : Match.env) (lobby : bool) : option Channel.t :=
  if lobby then
    match Match.channels E !! "#lobby" with
    | Some lchan =>
        if Match.nonempty (Channel.players lchan) then Some lchan else None
    | None => None
    end
  else None.

(** The call [lchan.enqueue(data)], when there is a discovery channel. *)
Definition to_discovery (E : Match.env) (lobby : bool) (data : bytes)
  : list event :=
  match discovery E lobby with
  | Some lchan => [Enqueue lchan data []]
  | None => []
  end.

(** The payloads a trace of calls hands to channel [ch]. *)
Definition delivered (ch : Channel.t) (tr : list event) : list bytes :=
  omap (λ e,
    match e with
    | Enqueue c data _ => if bool_decide (c = ch) then Some data else None
    | Breakpoint => None
    end) tr.

(** What ends a guarded broadcast on a match without a chat: the exception
    of the breakpoint hook, or else the failed read of [self.chat.enqueue]. *)
Definition no_chat_failure (E : Match.env) : string :=
  match Match.breakpointhook E with
  | Raise e => e
  | Return _ => AttributeError "enqueue"
  end.

(** The occupancy invariant at one slot: somebody sits in it exactly when
    its status passes the [has_player] test. *)
Definition occupancy (s : Slot.t) : Prop :=
  is_Some (Slot.player s) ↔ Slot.has_player s = true.

(** What the loop of [start] needs of a slot to get past it: an occupant to
    read the id of, when the status is [no_map]. *)
Definition startable (s : Slot.t) : Prop :=
  Slot.status s = SlotStatus.no_map → is_Some (Slot.player s).

(** The test [st & SlotStatus.has_player] on a status by itself. *)
Definition seated (st : SlotStatus.t) : bool :=
  truthy (SlotStatus.and st SlotStatus.has_player).

(** A string without the separator of the invitation url in it. *)
Fixpoint slashless (s : string) : Prop :=
  match s with
  | EmptyString => True
  | String c rest => c ≠ "/"%char ∧ slashless rest
  end.

(** ** A match to run the methods on

    Two seated players, the first one the host and not yet ready, the
    second one without the map; fourteen open slots; a chat and a lobby. *)

Definition P1 : Player.t := Player.mk 1 1001.
Definition P2 : Player.t := Player.mk 2 1002.
Definition P3 : Player.t := Player.mk 3 1003.

Definition multi : Channel.t := Channel.mk "#multi_42" [P1; P2].
Definition lobby_chan : Channel.t := Channel.mk "#lobby" [P3].

Definition slot0 : Slot.t :=
  {| Slot.player := Some P1; Slot.status := SlotStatus.not_ready;
     Slot.team := Teams.neutral; Slot.mods := Mods_NOMOD;
     Slot.loaded := false; Slot.skipped := false |}.

Definition slot1 : Slot.t :=
  {| Slot.player := Some P2; Slot.status := SlotStatus.no_map;
     Slot.team := Teams.neutral; Slot.mods := Mods_NOMOD;
     Slot.loaded := false; Slot.skipped := false |}.

Definition demo : Match.t :=
  {| Match.id := 42; Match.name := "demo"; Match.passwd := "abc";
     Match.host := Some P1; Match._refs := ∅;
     Match.bmap := None;
     Match.mods := Mods_NOMOD; Match.freemods := false;
     Match.mode := GameMode_vn_std;
     Match.chat := Some multi;
     Match.slots := slot0 :: slot1 :: replicate 14 Slot.__init__;
     Match.type := MatchTypes.standard;
     Match.team_type := MatchTeamTypes.head_to_head;
     Match.match_scoring := MatchScoringTypes.score;
     Match.in_progress := false; Match.seed := 0 |}.

(** An encoder that writes the name and, when asked to, the password; a
    directory with a subscribed lobby; a breakpoint hook that returns. *)
Definition demo_env : Match.env :=
  {| Match.updateMatch := λ m send_pw,
       String.list_byte_of_string (Match.name m)
       ++ (if send_pw then String.list_byte_of_string (Match.passwd m)
           else []);
     Match.matchStart := λ m,
       if Match.in_progress m then [Byte.x01] else [Byte.x00];
     Match.channels := {[ "#lobby" := lobby_chan ]};
     Match.breakpointhook := Return () |}.

(** * Properties *)

(** ** Statuses *)

Lemma SlotStatus_value_inj (a b : SlotStatus.t) :
  SlotStatus.value a = SlotStatus.value b → a = b.
Proof. by destruct a, b. Qed.

Lemma SlotStatus_eqb_eq (a b : SlotStatus.t) :
  SlotStatus.eqb a b = true ↔ a = b.
Proof.
  unfold SlotStatus.eqb. rewrite Z.eqb_eq. split.
  - apply SlotStatus_value_inj.
  - by intros ->.
Qed.

Lemma SlotStatus_eqb_decide (a b : SlotStatus.t) :
  SlotStatus.eqb a b = bool_decide (a = b).
Proof.
  apply eq_true_iff_eq. by rewrite SlotStatus_eqb_eq, bool_decide_eq_true.
Qed.

(** The [has_player] test fails on exactly the three statuses of a slot
    nobody sits in. *)
Lemma has_player_false (s : Slot.t) :
  Slot.has_player s = false ↔
  Slot.status s = SlotStatus.open ∨ Slot.status s = SlotStatus.locked
  ∨ Slot.status s = SlotStatus.quit.
Proof.
  unfold Slot.has_player.
  destruct (Slot.status s); cbn; intuition (auto; discriminate).
Qed.

(** ** Slot.copy *)

(** C8: after [s.copy(other)] the occupant, status, team and mods of [s] are
    those of [other], and [loaded] and [skipped] are what they were. *)
Theorem C8_slot_copy_frame (s other : Slot.t) :
  let s' := Slot.copy s other in
  Slot.player s' = Slot.player other
  ∧ Slot.status s' = Slot.status other
  ∧ Slot.team s' = Slot.team other
  ∧ Slot.mods s' = Slot.mods other
  ∧ Slot.loaded s' = Slot.loaded s
  ∧ Slot.skipped s' = Slot.skipped s.
Proof. by cbn. Qed.

(** ** Match.copy *)

(** C4: after [m.copy(other)] the beatmap, freemods, mode, team type, scoring
    type, mods and name of [m] are those of [other]; slots, host, referees,
    id, password, in_progress and seed (and also the chat and the match
    type) are what they were. *)
Theorem C4_copy_config_frame (m other : Match.t) :
  let m' := Match.copy m other in
  (Match.bmap m' = Match.bmap other
   ∧ Match.freemods m' = Match.freemods other
   ∧ Match.mode m' = Match.mode other
   ∧ Match.team_type m' = Match.team_type other
   ∧ Match.match_scoring m' = Match.match_scoring other
   ∧ Match.mods m' = Match.mods other
   ∧ Match.name m' = Match.name other)
  ∧ (Match.slots m' = Match.slots m
     ∧ Match.host m' = Match.host m
     ∧ Match._refs m' = Match._refs m
     ∧ Match.id m' = Match.id m
     ∧ Match.passwd m' = Match.passwd m
     ∧ Match.in_progress m' = Match.in_progress m
     ∧ Match.seed m' = Match.seed m)
  ∧ (Match.chat m' = Match.chat m ∧ Match.type m' = Match.type m).
Proof. by cbn. Qed.

(** ** Match.refs *)

(** C7: the authority set is exactly the host together with the referees, so
    the host is always in it, whatever the referee set holds. *)
Theorem C7_refs_host_union (m : Match.t) :
  Match.host m ∈ Match.refs m
  ∧ (∀ x : option Player.t,
       x ∈ Match.refs m ↔
       x = Match.host m ∨ ∃ p, x = Some p ∧ p ∈ Match._refs m)
  ∧ (Match._refs m = ∅ → Match.refs m = {[ Match.host m ]})
  ∧ (∀ p, Match.host m = Some p →
       Match.refs m = set_map Some ({[ p ]} ∪ Match._refs m)).
Proof.
  unfold Match.refs. split_and!.
  - set_solver.
  - intros x. rewrite elem_of_union, elem_of_singleton, elem_of_map.
    naive_solver.
  - intros ->. set_solver.
  - intros p ->. set_solver.
Qed.

(** ** Match.__contains__ *)

(** C10: the membership test answers whether the value is the occupant field
    of some slot; for [None] that is whether some slot is empty. *)
Theorem C10_contains_occupant (m : Match.t) (p : option Player.t) :
  (Match.__contains__ m p = true ↔
   ∃ s, s ∈ Match.slots m ∧ Slot.player s = p)
  ∧ (Match.__contains__ m None = true ↔
     ∃ s, s ∈ Match.slots m ∧ Slot.empty s = true).
Proof.
  unfold Match.__contains__. split.
  - rewrite bool_decide_eq_true, elem_of_list_to_set, list_elem_of_fmap.
    naive_solver.
  - rewrite bool_decide_eq_true, elem_of_list_to_set, list_elem_of_fmap.
    unfold Slot.empty. split.
    + intros (s & Hs & Hin). exists s. by rewrite <- Hs.
    + intros (s & Hin & Hs). exists s. by destruct (Slot.player s).
Qed.

(** ** Match.get_free *)

(** The scan entered at index [k] is stdpp's [list_find] shifted by [k]. *)
Lemma get_free_from_find (k : nat) (ss : list Slot.t) :
  Match.get_free_from k ss =
  (λ ix, (k + ix.1)%nat) <$>
    list_find (λ s, Slot.status s = SlotStatus.open) ss.
Proof.
  revert k. induction ss as [|s ss IH]; intros k; [done|].
  cbn [Match.get_free_from list_find]. rewrite SlotStatus_eqb_decide.
  destruct (decide (Slot.status s = SlotStatus.open)) as [Ho|Ho].
  - rewrite bool_decide_true by done. cbn. f_equal. lia.
  - rewrite bool_decide_false by done. rewrite IH.
    destruct (list_find _ ss) as [[i x]|]; cbn; [|done].
    f_equal. lia.
Qed.

(** C6: [get_free] returns the lowest index whose slot is open, [None] when
    no slot is open, and never raises (it is a total function); with slots
    [locked, open, open, ...] the answer is 1. *)
Theorem C6_get_free_lowest_open (m : Match.t) :
  (∀ i : nat,
     Match.get_free m = Some i ↔
     (∃ s, Match.slots m !! i = Some s ∧ Slot.status s = SlotStatus.open)
     ∧ ∀ (j : nat) s, (j < i)%nat → Match.slots m !! j = Some s →
         Slot.status s ≠ SlotStatus.open)
  ∧ (Match.get_free m = None ↔
     ∀ s, s ∈ Match.slots m → Slot.status s ≠ SlotStatus.open)
  ∧ (∀ a b c rest,
       Match.slots m = a :: b :: c :: rest →
       Slot.status a = SlotStatus.locked →
       Slot.status b = SlotStatus.open →
       Slot.status c = SlotStatus.open →
       Match.get_free m = Some 1%nat).
Proof.
  unfold Match.get_free. rewrite get_free_from_find. split_and!.
  - intros i. rewrite fmap_Some. split.
    + intros ([j s] & Hfind & ->). cbn.
      apply list_find_Some in Hfind as (Hj & Hs & Hlt). split; [eauto|].
      intros j' s' Hlt' Hj'. by apply (Hlt j' s').
    + intros ((s & Hi & Hs) & Hlt). exists (i, s). split; [|done].
      apply list_find_Some. split_and!; [done..|].
      intros j s' Hj Hlt'. by apply (Hlt j s').
  - rewrite fmap_None, list_find_None, Forall_forall. done.
  - intros a b c rest -> Ha Hb _. cbn.
    rewrite !decide_False by (rewrite Ha; discriminate).
    by rewrite decide_True.
Qed.

(** ** Match.get_host_slot *)

(** With a host and occupied [has_player] slots, the scan raises nothing and
    is [list_find] for [seats]. *)
Lemma get_host_slot_in_find (h : Player.t) (ss : list Slot.t) :
  (∀ s, s ∈ ss → Slot.has_player s = true → is_Some (Slot.player s)) →
  Match.get_host_slot_in (Some h) ss = Return (snd <$> list_find (seats h) ss).
Proof.
  induction ss as [|s ss IH]; intros Hocc; [done|].
  cbn [Match.get_host_slot_in list_find].
  assert (Hs : Slot.has_player s = true → is_Some (Slot.player s))
    by (apply Hocc; left).
  assert (IH' := IH (λ x Hx, Hocc x (list_elem_of_further _ _ _ Hx))).
  destruct (Slot.has_player s) eqn:Hhp.
  - destruct Hs as [p Hp]; [done|]. rewrite Hp. cbn [getattr].
    destruct (Player.id p =? Player.id h) eqn:Hid.
    + apply Z.eqb_eq in Hid. rewrite decide_True; [done|].
      split; [done|]. eauto.
    + apply Z.eqb_neq in Hid. rewrite decide_False.
      * rewrite IH'. by destruct (list_find _ ss) as [[]|].
      * intros (_ & q & Hq & ?). congruence.
  - rewrite decide_False.
    + rewrite IH'. by destruct (list_find _ ss) as [[]|].
    + intros (? & _). congruence.
Qed.

(** C9: when the host is set and every slot has an occupant exactly when its
    status passes the [has_player] test, [get_host_slot] raises nothing (no
    attribute is read on [None]) and returns the first slot, in index order,
    that passes the test and whose occupant has the host's id, or [None] when
    there is no such slot. *)
Theorem C9_get_host_slot_safe (m : Match.t) (h : Player.t) :
  Match.host m = Some h →
  (∀ s, s ∈ Match.slots m →
     is_Some (Slot.player s) ↔ Slot.has_player s = true) →
  ∃ r : option Slot.t,
    Match.get_host_slot m = Return r
    ∧ (∀ s, r = Some s ↔
         ∃ i : nat, Match.slots m !! i = Some s ∧ seats h s
           ∧ ∀ (j : nat) s', (j < i)%nat →
               Match.slots m !! j = Some s' →
               ¬ seats h s')
    ∧ (r = None ↔ ∀ s, s ∈ Match.slots m → ¬ seats h s).
Proof.
  intros Hh Hinv. exists (snd <$> list_find (seats h) (Match.slots m)).
  split_and!.
  - unfold Match.get_host_slot. rewrite Hh. apply get_host_slot_in_find.
    intros s Hs. by apply Hinv.
  - intros s. rewrite fmap_Some. split.
    + intros ([i x] & Hfind & ->). cbn.
      apply list_find_Some in Hfind as (Hi & Hx & Hlt).
      exists i. split_and!; [done..|].
      intros j s' Hj Hs'. by apply (Hlt j s').
    + intros (i & Hi & Hs & Hlt). exists (i, s). split; [|done].
      apply list_find_Some. split_and!; [done..|].
      intros j s' Hs' Hj. by apply (Hlt j s').
  - by rewrite fmap_None, list_find_None, Forall_forall.
Qed.

(** ** Running a method *)

Section run.
Context {B : Type} (E : Match.env) (m : Match.t).

Lemma bind_Return {A : Type} (c : Match.meth A) (f : A → Match.meth B)
  a m1 t1 :
  c E m = (Return a, m1, t1) →
  (c ≫= f) E m =
  (let '(r, m2, t2) := f a E m1 in (r, m2, t1 ++ t2)).
Proof. intros Hc. unfold mbind, Match.meth_bind. by rewrite Hc. Qed.

Lemma bind_quiet {A : Type} (c : Match.meth A) (f : A → Match.meth B) a m1 :
  c E m = (Return a, m1, []) → (c ≫= f) E m = f a E m1.
Proof.
  intros Hc. rewrite (bind_Return _ _ _ _ _ Hc).
  by destruct (f a E m1) as [[r m2] t2].
Qed.

Lemma bind_Raise {A : Type} (c : Match.meth A) (f : A → Match.meth B)
  e m1 t1 :
  c E m = (Raise e, m1, t1) → (c ≫= f) E m = (Raise e, m1, t1).
Proof. intros Hc. unfold mbind, Match.meth_bind. by rewrite Hc. Qed.

Lemma bind_get (f : Match.t → Match.meth B) :
  (Match.get ≫= f) E m = f m E m.
Proof. by apply bind_quiet. Qed.

Lemma bind_ask (f : Match.env → Match.meth B) :
  (Match.ask ≫= f) E m = f E E m.
Proof. by apply bind_quiet. Qed.
End run.

Lemma set_slots_same (m : Match.t) : Match.set_slots (Match.slots m) m = m.
Proof. by destruct m. Qed.

Lemma slots_set_slots (ss : list Slot.t) (m : Match.t) :
  Match.slots (Match.set_slots ss m) = ss.
Proof. done. Qed.

Lemma set_slots_twice (ss ss' : list Slot.t) (m : Match.t) :
  Match.set_slots ss (Match.set_slots ss' m) = Match.set_slots ss m.
Proof. done. Qed.

Lemma alter_at {X : Type} (f : X → X) (l : list X) (i : nat) (x : X) :
  l !! i = Some x → alter f i l = <[i:=f x]> l.
Proof.
  revert i. induction l as [|y l IH]; intros [|i] Hi; simplify_eq/=; [done|].
  f_equal. by apply IH.
Qed.

Lemma slot_at (E : Match.env) (m : Match.t) (i : nat) (s : Slot.t) :
  Match.slots m !! i = Some s → Match.slot i E m = (Return s, m, []).
Proof.
  intros Hi. unfold Match.slot. rewrite bind_get. by rewrite Hi.
Qed.

Lemma set_status_at (E : Match.env) (m : Match.t) (i : nat)
  (st : SlotStatus.t) (s : Slot.t) :
  Match.slots m !! i = Some s →
  Match.set_status i st E m =
  (Return (), Match.set_slots (<[i:=Slot.set_status st s]> (Match.slots m)) m,
   []).
Proof.
  intros Hi. unfold Match.set_status. rewrite bind_get.
  by rewrite (alter_at _ _ _ _ Hi).
Qed.

(** A loop over the slot indices whose body, at a slot satisfying [P],
    replaces the slot by [g] of it and the loop variables by [h] of them:
    once the slots [pre] are done, the rest is mapped and folded. *)
Lemma foldM_slots {A : Type} (body : A → nat → Match.meth A)
  (g : Slot.t → Slot.t) (h : A → Slot.t → A) (P : Slot.t → Prop)
  (E : Match.env) :
  (∀ a i s self, Match.slots self !! i = Some s → P s →
     body a i E self =
     (Return (h a s),
      Match.set_slots (<[i:=g s]> (Match.slots self)) self, [])) →
  ∀ suf pre a self,
    Match.slots self = pre ++ suf → Forall P suf →
    Match.foldM body (seq (length pre) (length suf)) a E self =
    (Return (fold_left h suf a),
     Match.set_slots (pre ++ (g <$> suf)) self, []).
Proof.
  intros Hbody. induction suf as [|s suf IH]; intros pre a self Hself HP.
  - cbn. rewrite app_nil_r, <- (app_nil_r pre), <- Hself.
    by rewrite set_slots_same.
  - apply Forall_cons in HP as [Hs HP]. cbn [length seq Match.foldM].
    assert (Hi : Match.slots self !! length pre = Some s)
      by (rewrite Hself; apply list_lookup_middle; done).
    rewrite (bind_quiet _ _ _ _ _ _ (Hbody a _ s self Hi Hs)).
    rewrite Hself, insert_app_r_alt, Nat.sub_diag by done.
    cbn [insert list_insert].
    replace (S (length pre)) with (length (pre ++ [g s]))
      by (rewrite length_app; cbn; lia).
    rewrite (IH (pre ++ [g s]) (h a s)); [|by rewrite <- app_assoc|done].
    cbn. by rewrite <- app_assoc.
Qed.

(** The whole loop of a method, from index 0. *)
Lemma foldM_all_slots {A : Type} (body : A → nat → Match.meth A)
  (g : Slot.t → Slot.t) (h : A → Slot.t → A) (P : Slot.t → Prop)
  (E : Match.env) (a : A) (self : Match.t) :
  (∀ a i s self, Match.slots self !! i = Some s → P s →
     body a i E self =
     (Return (h a s),
      Match.set_slots (<[i:=g s]> (Match.slots self)) self, [])) →
  Forall P (Match.slots self) →
  Match.foldM body (seq 0 (length (Match.slots self))) a E self =
  (Return (fold_left h (Match.slots self) a),
   Match.set_slots (g <$> Match.slots self) self, []).
Proof.
  intros Hbody HP.
  exact (foldM_slots body g h P E Hbody (Match.slots self) [] a self
           eq_refl HP).
Qed.

(** ** Match.unready_players *)

Lemma unready_players_run (E : Match.env) (m : Match.t)
  (expected : SlotStatus.t) :
  Match.unready_players expected E m =
  (Return (), Match.set_slots (unready_slot expected <$> Match.slots m) m, []).
Proof.
  unfold Match.unready_players. rewrite bind_get.
  rewrite (foldM_all_slots _ (unready_slot expected) (λ _ _, ()) (λ _, True)).
  - by destruct (fold_left _ _ _).
  - intros [] i s self Hi _.
    rewrite (bind_quiet _ _ _ _ _ _ (slot_at _ _ _ _ Hi)).
    rewrite SlotStatus_eqb_decide. unfold unready_slot.
    case_bool_decide.
    + by apply set_status_at.
    + by rewrite list_insert_id, set_slots_same.
  - by apply Forall_true.
Qed.

Lemma unready_slot_idemp (expected : SlotStatus.t) (s : Slot.t) :
  expected ≠ SlotStatus.not_ready →
  unready_slot expected (unready_slot expected s) = unready_slot expected s.
Proof.
  intros Hne. unfold unready_slot.
  destruct (decide (Slot.status s = expected)) as [Hs|Hs].
  - rewrite (bool_decide_true (Slot.status s = expected)) by done. cbn.
    by rewrite bool_decide_false by congruence.
  - rewrite (bool_decide_false (Slot.status s = expected)) by done.
    by rewrite bool_decide_false by done.
Qed.

(** C5: [unready_players(expected)] returns, sends nothing, assigns nothing
    but slot statuses, and sets to [not_ready] the status of exactly the
    slots whose status is [expected]; a second [unready_players(ready)] right
    after the first changes nothing. *)
Theorem C5_unready_players_exact (E : Match.env) (m : Match.t) :
  (∀ expected : SlotStatus.t,
     ∃ m' : Match.t,
       Match.unready_players expected E m = (Return (), m', [])
       ∧ m' = Match.set_slots (Match.slots m') m
       ∧ length (Match.slots m') = length (Match.slots m)
       ∧ ∀ (i : nat) s, Match.slots m !! i = Some s →
           ∃ s', Match.slots m' !! i = Some s'
             ∧ s' = Slot.set_status (Slot.status s') s
             ∧ (Slot.status s = expected →
                Slot.status s' = SlotStatus.not_ready)
             ∧ (Slot.status s ≠ expected → s' = s))
  ∧ (∃ m1 : Match.t,
       Match.unready_players SlotStatus.ready E m = (Return (), m1, [])
       ∧ Match.unready_players SlotStatus.ready E m1 = (Return (), m1, [])).
Proof.
  split.
  - intros expected. eexists. split; [apply unready_players_run|].
    split_and!; [done|cbn; by rewrite length_fmap|].
    intros i s Hi. exists (unready_slot expected s). cbn.
    rewrite list_lookup_fmap, Hi. split; [done|].
    unfold unready_slot. case_bool_decide; cbn; split_and!; try done.
    by destruct s.
  - eexists. split; [apply unready_players_run|].
    rewrite unready_players_run, slots_set_slots, set_slots_twice.
    rewrite <- list_fmap_compose.
    rewrite (list_fmap_ext _ (unready_slot SlotStatus.ready)); [done|].
    intros i s _. by apply unready_slot_idemp.
Qed.

(** ** Broadcasts *)

Lemma delivered_other (ch c : Channel.t) (data : bytes) (immune : list Z)
  (tr : list event) :
  ch ≠ c → delivered ch (Enqueue c data immune :: tr) = delivered ch tr.
Proof.
  intros Hne. unfold delivered. cbn. by rewrite bool_decide_false.
Qed.

Lemma delivered_same (ch : Channel.t) (data : bytes) (immune : list Z)
  (tr : list event) :
  delivered ch (Enqueue ch data immune :: tr) = data :: delivered ch tr.
Proof. unfold delivered. cbn. by rewrite bool_decide_true. Qed.

Lemma discovery_Some (E : Match.env) (lobby : bool) (lchan : Channel.t) :
  discovery E lobby = Some lchan ↔
  lobby = true ∧ Match.channels E !! "#lobby" = Some lchan
  ∧ Channel.players lchan ≠ [].
Proof.
  unfold discovery. destruct lobby; [|naive_solver].
  destruct (Match.channels E !! "#lobby") as [l|]; [|naive_solver].
  destruct (Channel.players l) eqn:Hl; cbn; [naive_solver|].
  split.
  - intros [= <-]. by rewrite Hl.
  - by intros (_ & [= <-] & _).
Qed.

Lemma enqueue_run (E : Match.env) (m : Match.t) (c : Channel.t)
  (data : bytes) (lobby : bool) (immune : list Z) :
  Match.chat m = Some c →
  Match.enqueue data lobby immune E m =
  (Return (), m, Enqueue c data immune :: to_discovery E lobby data).
Proof.
  intros Hc. unfold Match.enqueue, to_discovery, discovery.
  rewrite bind_get, Hc. cbn [Match.is_set negb getattr].
  unfold mbind, Match.meth_bind, mret, Match.meth_ret, Match.lift, Match.emit,
    Match.ask.
  destruct lobby; [|done].
  destruct (Match.channels E !! "#lobby") as [l|]; [|done].
  by destruct (Match.nonempty (Channel.players l)).
Qed.

Lemma enqueue_state_run (E : Match.env) (m : Match.t) (c : Channel.t)
  (lobby : bool) :
  Match.chat m = Some c →
  Match.enqueue_state lobby E m =
  (Return (), m,
   Enqueue c (Match.updateMatch E m true) []
     :: to_discovery E lobby (Match.updateMatch E m false)).
Proof.
  intros Hc. unfold Match.enqueue_state, to_discovery, discovery.
  rewrite bind_get, Hc. cbn [Match.is_set negb getattr].
  unfold mbind, Match.meth_bind, mret, Match.meth_ret, Match.lift, Match.emit,
    Match.ask.
  destruct lobby; [|done].
  destruct (Match.channels E !! "#lobby") as [l|]; [|done].
  by destruct (Match.nonempty (Channel.players l)).
Qed.

Lemma enqueue_no_chat (E : Match.env) (m : Match.t)
  (data : bytes) (lobby : bool) (immune : list Z) :
  Match.chat m = None →
  Match.enqueue data lobby immune E m =
  (Raise (no_chat_failure E), m, [Breakpoint]).
Proof.
  intros Hc. unfold Match.enqueue, Match.breakpoint, no_chat_failure.
  rewrite bind_get, Hc. cbn [Match.is_set negb getattr].
  unfold mbind, Match.meth_bind, mret, Match.meth_ret, Match.lift, Match.emit,
    Match.ask.
  by destruct (Match.breakpointhook E) as [[]|e].
Qed.

Lemma enqueue_state_no_chat (E : Match.env) (m : Match.t) (lobby : bool) :
  Match.chat m = None →
  Match.enqueue_state lobby E m =
  (Raise (no_chat_failure E), m, [Breakpoint]).
Proof.
  intros Hc. unfold Match.enqueue_state, Match.breakpoint, no_chat_failure.
  rewrite bind_get, Hc. cbn [Match.is_set negb getattr].
  unfold mbind, Match.meth_bind, mret, Match.meth_ret, Match.lift, Match.emit,
    Match.ask.
  by destruct (Match.breakpointhook E) as [[]|e].
Qed.

(** C3: on a match whose chat is unset, [enqueue] and [enqueue_state] both
    stop at the guard: the breakpoint is hit, the call ends in an exception
    (the hook's, or the read of [enqueue] on [None]) whatever the hook does,
    it never returns, and nothing was handed to any channel. *)
Theorem C3_no_chat_is_fatal (E : Match.env) (m : Match.t)
  (data : bytes) (lobby : bool) (immune : list Z) :
  Match.chat m = None →
  ∃ e : string,
    Match.enqueue data lobby immune E m = (Raise e, m, [Breakpoint])
    ∧ Match.enqueue_state lobby E m = (Raise e, m, [Breakpoint])
    ∧ (∀ r m' tr, Match.enqueue data lobby immune E m = (r, m', tr) →
         r ≠ Return () ∧ ∀ ch, delivered ch tr = [])
    ∧ (∀ r m' tr, Match.enqueue_state lobby E m = (r, m', tr) →
         r ≠ Return () ∧ ∀ ch, delivered ch tr = []).
Proof.
  intros Hc. exists (no_chat_failure E).
  rewrite (enqueue_no_chat _ _ _ _ _ Hc), (enqueue_state_no_chat _ _ _ Hc).
  split_and!; [done..| |]; by intros r m' tr [= <- <- <-].
Qed.

(** C2: on a match with a chat, [enqueue_state] hands the encoding made with
    the password to the chat and to nothing else, and hands the encoding made
    without it to the discovery channel exactly when [lobby] is set, the
    directory has a ["#lobby"] channel and that channel has subscribers.  If
    the encoder's output without the password does not depend on the
    password, what the discovery channel is sent, and (the chat not being the
    discovery channel itself) all it receives, is the same for two matches
    that differ only in their password. *)
Theorem C2_enqueue_state_audiences (E : Match.env) (m : Match.t)
  (c : Channel.t) (lobby : bool) :
  Match.chat m = Some c →
  (∀ m0 pw, Match.updateMatch E (Match.set_passwd pw m0) false =
            Match.updateMatch E m0 false) →
  Match.enqueue_state lobby E m =
    (Return (), m,
     Enqueue c (Match.updateMatch E m true) []
       :: match discovery E lobby with
          | Some lchan => [Enqueue lchan (Match.updateMatch E m false) []]
          | None => []
          end)
  ∧ (∀ lchan, discovery E lobby = Some lchan ↔
       lobby = true ∧ Match.channels E !! "#lobby" = Some lchan
       ∧ Channel.players lchan ≠ [])
  ∧ (∀ pw,
       to_discovery E lobby
         (Match.updateMatch E (Match.set_passwd pw m) false) =
       to_discovery E lobby (Match.updateMatch E m false))
  ∧ (∀ pw lchan,
       Match.channels E !! "#lobby" = Some lchan → lchan ≠ c →
       delivered lchan (Match.enqueue_state lobby E (Match.set_passwd pw m)).2 =
       delivered lchan (Match.enqueue_state lobby E m).2).
Proof.
  intros Hc Henc. split_and!.
  - by rewrite (enqueue_state_run _ _ _ _ Hc).
  - apply discovery_Some.
  - intros pw. by rewrite Henc.
  - intros pw lchan _ Hne.
    rewrite (enqueue_state_run _ _ c), (enqueue_state_run _ _ c) by done.
    cbn [snd]. rewrite !delivered_other by done.
    by rewrite Henc.
Qed.

(** ** Match.start *)

Lemma fold_left_exempt (ss : list Slot.t) (acc : list Z) :
  fold_left (λ a s, a ++ option_list (exempt s)) ss acc =
  acc ++ omap exempt ss.
Proof.
  revert acc. induction ss as [|s ss IH]; intros acc; cbn.
  - by rewrite app_nil_r.
  - rewrite IH, <- app_assoc. by destruct (exempt s).
Qed.

Lemma start_loop_run (E : Match.env) (m : Match.t) :
  (∀ s, s ∈ Match.slots m → Slot.status s = SlotStatus.no_map →
     is_Some (Slot.player s)) →
  Match.foldM (λ no_map i,
      s ← Match.slot i;
      if Slot.has_player s then
        if negb (SlotStatus.eqb (Slot.status s) SlotStatus.no_map)
        then Match.set_status i SlotStatus.playing;; mret no_map
        else p ← Match.lift (getattr (Slot.player s) "id");
             mret (no_map ++ [Player.id p])
      else mret no_map)
    (seq 0 (length (Match.slots m))) [] E m =
  (Return (omap exempt (Match.slots m)),
   Match.set_slots (start_slot <$> Match.slots m) m, []).
Proof.
  intros Hocc.
  rewrite (foldM_all_slots _ start_slot
             (λ a s, a ++ option_list (exempt s))
             (λ s, Slot.status s = SlotStatus.no_map →
                   is_Some (Slot.player s))).
  - by rewrite fold_left_exempt.
  - intros a i s self Hi Hs.
    rewrite (bind_quiet _ _ _ _ _ _ (slot_at _ _ _ _ Hi)).
    rewrite SlotStatus_eqb_decide. unfold start_slot, exempt.
    destruct (Slot.has_player s) eqn:Hhp; cbn [andb].
    + case_bool_decide as Hst; cbn [negb].
      * destruct Hs as [p Hp]; [done|]. rewrite Hp.
        cbn [getattr fmap option_fmap option_map option_list].
        rewrite list_insert_id, set_slots_same by done. done.
      * rewrite (bind_quiet _ _ _ _ _ _ (set_status_at _ _ _ _ _ Hi)).
        cbn. by rewrite app_nil_r.
    + rewrite bool_decide_false.
      * cbn. by rewrite app_nil_r, list_insert_id, set_slots_same.
      * intros Hst. unfold Slot.has_player in Hhp. by rewrite Hst in Hhp.
  - by apply Forall_forall.
Qed.

Lemma start_run (E : Match.env) (m : Match.t) (c : Channel.t) :
  Match.chat m = Some c →
  (∀ s, s ∈ Match.slots m → Slot.status s = SlotStatus.no_map →
     is_Some (Slot.player s)) →
  Match.start E m =
  (Return (), started m,
   (Enqueue c (Match.matchStart E (started m)) (omap exempt (Match.slots m))
      :: to_discovery E true (Match.matchStart E (started m)))
   ++ Enqueue c (Match.updateMatch E (started m) true) []
      :: to_discovery E true (Match.updateMatch E (started m) false)).
Proof.
  intros Hc Hocc. unfold Match.start.
  rewrite bind_get, (bind_quiet _ _ _ _ _ _ (start_loop_run E m Hocc)).
  rewrite bind_get. unfold Match.put at 1.
  rewrite (bind_quiet _ _ (λ _ _, _) _ () (started m)) by done.
  rewrite bind_get, bind_ask.
  assert (Hc' : Match.chat (started m) = Some c) by done.
  rewrite (bind_Return _ _ _ _ _ _ _ (enqueue_run _ _ _ _ _ _ Hc')).
  by rewrite (enqueue_state_run _ _ _ _ Hc').
Qed.

Lemma elem_of_omap_exempt (ss : list Slot.t) (z : Z) :
  z ∈ omap exempt ss ↔
  ∃ s p, s ∈ ss ∧ Slot.status s = SlotStatus.no_map
         ∧ Slot.player s = Some p ∧ Player.id p = z.
Proof.
  rewrite list_elem_of_omap. unfold exempt. split.
  - intros (s & Hs & Hz). case_bool_decide; [|done].
    destruct (Slot.player s) as [p|] eqn:Hp; simplify_eq/=. eauto 6.
  - intros (s & p & Hs & Hst & Hp & <-). exists s. split; [done|].
    by rewrite bool_decide_true, Hp.
Qed.

(** C1: on a match with a chat (its [no_map] slots occupied, as the
    occupancy invariant has it), [start] returns after, in this order:
    setting to [playing] every slot that passes the [has_player] test and is
    not [no_map], keeping every [no_map] slot and recording its occupant's
    id; setting [in_progress]; sending the start signal, encoded from the
    match as it then is, to the chat with exactly the recorded ids immune
    (and to the discovery channel); sending the state, encoded from the same
    match with [in_progress] set, to the chat and the discovery channel.
    Slots that fail the test (open, locked, quit) are as before. *)
Theorem C1_start_in_order (E : Match.env) (m : Match.t) (c : Channel.t) :
  Match.chat m = Some c →
  (∀ s, s ∈ Match.slots m → Slot.status s = SlotStatus.no_map →
     is_Some (Slot.player s)) →
  ∃ (m' : Match.t) (immune : list Z),
    Match.start E m =
      (Return (), m',
       (Enqueue c (Match.matchStart E m') immune
          :: to_discovery E true (Match.matchStart E m'))
       ++ Enqueue c (Match.updateMatch E m' true) []
          :: to_discovery E true (Match.updateMatch E m' false))
    ∧ Match.in_progress m' = true
    ∧ m' = Match.set_in_progress true (Match.set_slots (Match.slots m') m)
    ∧ length (Match.slots m') = length (Match.slots m)
    ∧ (∀ (i : nat) s, Match.slots m !! i = Some s →
         ∃ s', Match.slots m' !! i = Some s'
           ∧ s' = Slot.set_status (Slot.status s') s
           ∧ (Slot.has_player s = true →
              Slot.status s ≠ SlotStatus.no_map →
              Slot.status s' = SlotStatus.playing)
           ∧ (Slot.status s = SlotStatus.no_map → s' = s)
           ∧ (Slot.has_player s = false → s' = s)
           ∧ (Slot.has_player s = false ↔
              Slot.status s = SlotStatus.open
              ∨ Slot.status s = SlotStatus.locked
              ∨ Slot.status s = SlotStatus.quit))
    ∧ immune = omap exempt (Match.slots m)
    ∧ (∀ z, z ∈ immune ↔
         ∃ s p, s ∈ Match.slots m ∧ Slot.status s = SlotStatus.no_map
                ∧ Slot.player s = Some p ∧ Player.id p = z).
Proof.
  intros Hc Hocc. exists (started m), (omap exempt (Match.slots m)).
  split_and!.
  - by apply start_run.
  - done.
  - done.
  - cbn. by rewrite length_fmap.
  - intros i s Hi. exists (start_slot s). cbn.
    rewrite list_lookup_fmap, Hi. split; [done|].
    unfold start_slot. split_and!.
    + destruct (_ && _); [done|by destruct s].
    + intros -> Hst. by rewrite bool_decide_false.
    + intros Hst. by rewrite bool_decide_true, andb_false_r.
    + by intros ->.
    + apply has_player_false.
  - done.
  - apply elem_of_omap_exempt.
Qed.

(** * The statements at work on the demo match *)

Lemma demo_no_map_occupied (s : Slot.t) :
  s ∈ Match.slots demo → Slot.status s = SlotStatus.no_map →
  is_Some (Slot.player s).
Proof.
  revert s.
  apply (proj1 (Forall_forall
    (λ s, Slot.status s = SlotStatus.no_map → is_Some (Slot.player s)) _)).
  cbn.
  repeat (apply Forall_cons; split;
          [cbn; first [discriminate | eauto]|]).
  by apply Forall_nil.
Defined.

Lemma demo_occupancy (s : Slot.t) :
  s ∈ Match.slots demo →
  is_Some (Slot.player s) ↔ Slot.has_player s = true.
Proof.
  revert s.
  apply (proj1 (Forall_forall
    (λ s, is_Some (Slot.player s) ↔ Slot.has_player s = true) _)).
  cbn.
  repeat (apply Forall_cons; split;
          [cbn; split; first [discriminate | by intros [? [=]] | eauto]|]).
  by apply Forall_nil.
Defined.

(** [start] on the demo match: the host's slot goes to [playing], the slot
    without the map stays, the flag is set, and the start signal leaves with
    the second player's id, and only it, immune. *)
Lemma C1_start_in_order_witness :
  Match.chat demo = Some multi
  ∧ ∃ (m' : Match.t) (tr : list event),
      Match.start demo_env demo =
        (Return (), m',
         Enqueue multi (Match.matchStart demo_env m') [1002] :: tr)
      ∧ Match.in_progress m' = true
      ∧ (∃ s', Match.slots m' !! 0%nat = Some s'
               ∧ Slot.status s' = SlotStatus.playing)
      ∧ Match.slots m' !! 1%nat = Some slot1.
Proof.
  split; [reflexivity|].
  destruct (C1_start_in_order demo_env demo multi eq_refl demo_no_map_occupied)
    as (m' & immune & Hrun & Hflag & _ & _ & Hslots & -> & _).
  eexists m', _. split; [exact Hrun|]. split; [exact Hflag|].
  destruct (Hslots 0%nat slot0 eq_refl) as (s0 & H0 & _ & Hplay & _).
  destruct (Hslots 1%nat slot1 eq_refl) as (s1 & H1 & _ & _ & Hkeep & _).
  split.
  - exists s0. split; [exact H0|]. apply Hplay; [reflexivity|discriminate].
  - rewrite H1. f_equal. apply Hkeep. reflexivity.
Defined.

(** [enqueue_state] on the demo match: the chat gets name and password, the
    lobby the name alone, whatever the password is. *)
Lemma C2_enqueue_state_audiences_witness :
  Match.chat demo = Some multi
  ∧ Match.enqueue_state true demo_env demo =
      (Return (), demo,
       [Enqueue multi (String.list_byte_of_string "demoabc") [];
        Enqueue lobby_chan (String.list_byte_of_string "demo") []])
  ∧ ∀ pw,
      delivered lobby_chan
        (Match.enqueue_state true demo_env (Match.set_passwd pw demo)).2 =
      [String.list_byte_of_string "demo"].
Proof.
  split; [reflexivity|].
  destruct (C2_enqueue_state_audiences demo_env demo multi true eq_refl)
    as (Hrun & _ & _ & Hsame).
  - intros m0 pw. reflexivity.
  - split; [exact Hrun|].
    intros pw.
    rewrite (Hsame pw lobby_chan eq_refl); [reflexivity|discriminate].
Defined.

(** A fresh match has no chat: both broadcasts end in the same exception,
    with nothing but the breakpoint before it. *)
Lemma C3_no_chat_is_fatal_witness :
  Match.chat Match.__init__ = None
  ∧ ∃ e : string,
      Match.enqueue [Byte.x01] true [] demo_env Match.__init__ =
        (Raise e, Match.__init__, [Breakpoint])
      ∧ Match.enqueue_state true demo_env Match.__init__ =
        (Raise e, Match.__init__, [Breakpoint]).
Proof.
  split; [reflexivity|].
  destruct (C3_no_chat_is_fatal demo_env Match.__init__ [Byte.x01] true []
              eq_refl)
    as (e & Hraw & Hstate & _).
  exists e. split; [exact Hraw|exact Hstate].
Defined.

(** The host of the demo match sits in slot 0. *)
Lemma C9_get_host_slot_safe_witness :
  Match.host demo = Some P1
  ∧ Match.get_host_slot demo = Return (Some slot0).
Proof.
  split; [reflexivity|].
  destruct (C9_get_host_slot_safe demo P1 eq_refl demo_occupancy)
    as (r & Hrun & Hsome & _).
  rewrite Hrun. f_equal. apply Hsome. exists 0%nat.
  split; [reflexivity|]. split.
  - split; [reflexivity|]. exists P1. split; reflexivity.
  - intros j s' Hj. lia.
Defined.

(** The no-map slot of a match loses its occupant: [start] stops there with
    the failed read of [player.id], after the host's slot went to [playing],
    before the flag is set, and sends nothing. *)
Example start_unoccupied_no_map :
  let broken :=
    Match.set_slots
      (slot0 :: Slot.set_status SlotStatus.no_map Slot.__init__ :: [slot1])
      demo in
  Match.start demo_env broken =
  (Raise (AttributeError "id"),
   Match.set_slots
     (Slot.set_status SlotStatus.playing slot0
        :: Slot.set_status SlotStatus.no_map Slot.__init__ :: [slot1]) demo,
   []).
Proof. reflexivity. Qed.

(** The invitation url of the demo match. *)
Example url_demo : Match.url demo = "osump://42/abc".
Proof. reflexivity. Qed.

(** * Beyond the claims *)

(** ** Match.get_slot_id and Match.get_slot *)

Lemma get_slot_id_from_find (k : nat) (p : option Player.t)
  (ss : list Slot.t) :
  Match.get_slot_id_from k p ss =
  (λ ix, (k + ix.1)%nat) <$> list_find (λ s, p = Slot.player s) ss.
Proof.
  revert k. induction ss as [|s ss IH]; intros k; [done|].
  cbn [Match.get_slot_id_from list_find].
  destruct (decide (p = Slot.player s)) as [Hp|Hp].
  - rewrite bool_decide_true by done. cbn. f_equal. lia.
  - rewrite bool_decide_false by done. rewrite IH.
    destruct (list_find _ ss) as [[i x]|]; cbn; [|done].
    f_equal. lia.
Qed.

Lemma get_slot_in_find (p : option Player.t) (ss : list Slot.t) :
  Match.get_slot_in p ss = snd <$> list_find (λ s, p = Slot.player s) ss.
Proof.
  induction ss as [|s ss IH]; [done|].
  cbn [Match.get_slot_in list_find].
  destruct (decide (p = Slot.player s)) as [Hp|Hp].
  - by rewrite bool_decide_true by done.
  - rewrite bool_decide_false by done. rewrite IH.
    by destruct (list_find _ ss) as [[i x]|].
Qed.

(** X1: [get_slot_id] answers the lowest index whose slot holds [p], an index
    inside the list, and [None] exactly when [p in self] is false; asked for
    [None] it finds the first empty slot. *)
Theorem X1_get_slot_id_first (m : Match.t) (p : option Player.t) :
  (∀ i : nat,
     Match.get_slot_id m p = Some i ↔
     (∃ s, Match.slots m !! i = Some s ∧ Slot.player s = p)
     ∧ ∀ (j : nat) s, (j < i)%nat → Match.slots m !! j = Some s →
         Slot.player s ≠ p)
  ∧ (∀ i : nat, Match.get_slot_id m p = Some i →
       (i < length (Match.slots m))%nat)
  ∧ (Match.get_slot_id m p = None ↔ Match.__contains__ m p = false)
  ∧ (∀ i : nat, Match.get_slot_id m None = Some i →
       ∃ s, Match.slots m !! i = Some s ∧ Slot.empty s = true).
Proof.
  assert (Hchar : ∀ q (i : nat),
    Match.get_slot_id m q = Some i ↔
     (∃ s, Match.slots m !! i = Some s ∧ Slot.player s = q)
     ∧ ∀ (j : nat) s, (j < i)%nat → Match.slots m !! j = Some s →
         Slot.player s ≠ q).
  { intros q i. unfold Match.get_slot_id.
    rewrite get_slot_id_from_find, fmap_Some. split.
    - intros ([j s] & Hfind & ->). cbn.
      apply list_find_Some in Hfind as (Hj & Hs & Hlt). split; [eauto|].
      intros j' s' Hlt' Hj' Heq. by apply (Hlt j' s').
    - intros ((s & Hi & Hs) & Hlt). exists (i, s). split; [|done].
      apply list_find_Some. split_and!; [done..|].
      intros j s' Hj Hlt' Heq. by apply (Hlt j s'). }
  split_and!.
  - apply Hchar.
  - intros i [(s & Hi & _) _]%Hchar. by apply lookup_lt_Some in Hi.
  - unfold Match.get_slot_id, Match.__contains__.
    rewrite get_slot_id_from_find, fmap_None, list_find_None.
    rewrite bool_decide_eq_false, elem_of_list_to_set, list_elem_of_fmap.
    rewrite Forall_forall. split.
    + intros Hno (s & Hs & Hin). by apply (Hno s).
    + intros Hno s Hin Hs. apply Hno. eauto.
  - intros i [(s & Hi & Hs) _]%Hchar. exists s. split; [done|].
    unfold Slot.empty. by rewrite Hs.
Qed.

(** X2: [get_slot] returns the slot that sits at the index [get_slot_id]
    returns, a slot of the match that holds [p], and it finds one exactly
    when [p in self] is true. *)
Theorem X2_get_slot_agrees (m : Match.t) (p : option Player.t) :
  Match.get_slot m p = (Match.get_slot_id m p ≫= λ i, Match.slots m !! i)
  ∧ (is_Some (Match.get_slot m p) ↔ Match.__contains__ m p = true)
  ∧ (∀ s, Match.get_slot m p = Some s →
       Slot.player s = p ∧ s ∈ Match.slots m).
Proof.
  unfold Match.get_slot, Match.get_slot_id, Match.__contains__.
  rewrite get_slot_in_find, get_slot_id_from_find.
  destruct (list_find _ (Match.slots m)) as [[i s]|] eqn:Hfind; cbn.
  - apply list_find_Some in Hfind as (Hi & Hs & _). split_and!.
    + done.
    + rewrite bool_decide_eq_true, elem_of_list_to_set, list_elem_of_fmap.
      split; [|by eauto]. intros _. exists s. split; [done|].
      by eapply list_elem_of_lookup_2.
    + intros s' [= <-]. split; [done|]. by eapply list_elem_of_lookup_2.
  - apply list_find_None in Hfind. rewrite Forall_forall in Hfind.
    split_and!; [done| |done].
    rewrite bool_decide_eq_true, elem_of_list_to_set, list_elem_of_fmap.
    split; [by intros [? [=]]|]. intros (s & Hs & Hin).
    by destruct (Hfind s Hin).
Qed.

(** ** Match.get_host_slot outside its preconditions *)

Lemma get_host_slot_in_no_host (ss : list Slot.t) :
  Match.get_host_slot_in None ss =
  if bool_decide (Exists (λ s, Slot.has_player s = true) ss)
  then Raise (AttributeError "id") else Return None.
Proof.
  induction ss as [|s ss IH].
  - done.
  - cbn [Match.get_host_slot_in]. destruct (Slot.has_player s) eqn:Hs.
    + rewrite bool_decide_true by (by left).
      by destruct (Slot.player s).
    + rewrite IH.
      rewrite (bool_decide_ext
        (Exists (λ s, Slot.has_player s = true) (s :: ss))
        (Exists (λ s, Slot.has_player s = true) ss)); [done|].
      rewrite Exists_cons. split; [|by right].
      intros [Hs'|]; [congruence|done].
Qed.

(** X3: on a match without a host, [get_host_slot] returns [None] when no
    slot passes the [has_player] test, and raises the [AttributeError] of
    reading [id] on [None] as soon as one does; it never returns a slot. *)
Theorem X3_get_host_slot_no_host (m : Match.t) :
  Match.host m = None →
  (Match.get_host_slot m = Return None ↔
   ∀ s, s ∈ Match.slots m → Slot.has_player s = false)
  ∧ (Match.get_host_slot m = Raise (AttributeError "id") ↔
     ∃ s, s ∈ Match.slots m ∧ Slot.has_player s = true)
  ∧ (∀ s, Match.get_host_slot m ≠ Return (Some s)).
Proof.
  intros Hh. unfold Match.get_host_slot.
  rewrite Hh, get_host_slot_in_no_host.
  case_bool_decide as Hex; rewrite Exists_exists in Hex.
  - split_and!; [|done|done]. split; [done|].
    intros Hall. destruct Hex as (s & Hin & Hs).
    rewrite (Hall s Hin) in Hs. done.
  - split_and!; [|done|done]. split; [|done].
    intros _ s Hin. destruct (Slot.has_player s) eqn:Hs; [|done].
    destruct Hex. eauto.
Qed.

(** A fresh match has no host and only open slots. *)
Lemma X3_get_host_slot_no_host_witness :
  Match.host Match.__init__ = None
  ∧ Match.get_host_slot Match.__init__ = Return None.
Proof.
  split; [reflexivity|].
  destruct (X3_get_host_slot_no_host Match.__init__ eq_refl) as (Hnone & _).
  apply Hnone. intros s Hs. apply elem_of_replicate in Hs as [-> _].
  reflexivity.
Defined.

Lemma get_host_slot_in_app (h : Player.t) (pre ss : list Slot.t) :
  (∀ x, x ∈ pre → Slot.has_player x = true →
     ∃ p, Slot.player x = Some p ∧ Player.id p ≠ Player.id h) →
  Match.get_host_slot_in (Some h) (pre ++ ss) =
  Match.get_host_slot_in (Some h) ss.
Proof.
  induction pre as [|x pre IH]; intros Hpre; [done|].
  cbn [app Match.get_host_slot_in].
  rewrite IH by (intros y Hy; apply Hpre; by right).
  destruct (Slot.has_player x) eqn:Hx; [|done].
  destruct (Hpre x) as (p & -> & Hid); [by left|done|].
  cbn. by rewrite (proj2 (Z.eqb_neq _ _) Hid).
Qed.

(** X4: a slot that passes the [has_player] test but has no occupant makes
    [get_host_slot] raise, when the scan reaches it: when every slot before
    it that passes the test holds somebody else than the host. *)
Theorem X4_get_host_slot_unoccupied (m : Match.t) (h : Player.t)
  (pre suf : list Slot.t) (s : Slot.t) :
  Match.host m = Some h →
  Match.slots m = pre ++ s :: suf →
  Slot.has_player s = true → Slot.player s = None →
  (∀ x, x ∈ pre → Slot.has_player x = true →
     ∃ p, Slot.player x = Some p ∧ Player.id p ≠ Player.id h) →
  Match.get_host_slot m = Raise (AttributeError "id").
Proof.
  intros Hh Hm Hs Hp Hpre. unfold Match.get_host_slot.
  rewrite Hh, Hm, get_host_slot_in_app by done.
  cbn [Match.get_host_slot_in]. by rewrite Hs, Hp.
Qed.

(** The host's seat comes after a ready slot nobody sits in. *)
Lemma X4_get_host_slot_unoccupied_witness :
  Match.get_host_slot
    (Match.set_slots
       [slot1; Slot.set_status SlotStatus.ready Slot.__init__; slot0] demo) =
  Raise (AttributeError "id").
Proof.
  apply (X4_get_host_slot_unoccupied _ P1 [slot1]
           [slot0] (Slot.set_status SlotStatus.ready Slot.__init__));
    [reflexivity..|].
  intros x ->%list_elem_of_singleton _. exists P2. split; [reflexivity|].
  discriminate.
Defined.

Lemma list_find_agree {X : Type} (P Q : X → Prop)
  `{∀ x, Decision (P x)} `{∀ x, Decision (Q x)} (l : list X) :
  (∀ x, x ∈ l → P x ↔ Q x) → list_find P l = list_find Q l.
Proof.
  induction l as [|x l IH]; intros HPQ; [done|]. cbn.
  assert (Hx : P x ↔ Q x) by (apply HPQ; by left).
  rewrite IH by (intros y Hy; apply HPQ; by right).
  destruct (decide (P x)), (decide (Q x)); tauto || done.
Qed.

(** X5: when the host is set, the occupancy invariant holds and no other
    seated player carries the host's id, [get_host_slot] returns what
    [get_slot] returns for the host. *)
Theorem X5_get_host_slot_is_get_slot (m : Match.t) (h : Player.t) :
  Match.host m = Some h →
  (∀ s, s ∈ Match.slots m → occupancy s) →
  (∀ s p, s ∈ Match.slots m → Slot.player s = Some p →
     Player.id p = Player.id h → p = h) →
  Match.get_host_slot m = Return (Match.get_slot m (Some h)).
Proof.
  intros Hh Hocc Huniq. unfold Match.get_host_slot, Match.get_slot.
  rewrite Hh, get_slot_in_find, get_host_slot_in_find.
  - f_equal. f_equal. apply list_find_agree. intros s Hs. split.
    + intros (_ & p & Hp & Hid). rewrite Hp. f_equal. symmetry. eauto.
    + intros Hp. split; [apply Hocc; [done|by rewrite <- Hp]|].
      exists h. by rewrite Hp.
  - intros s Hs Hhp. by apply Hocc.
Qed.

Lemma X5_get_host_slot_is_get_slot_witness :
  Match.get_host_slot demo = Return (Match.get_slot demo (Some P1))
  ∧ Match.get_slot demo (Some P1) = Some slot0.
Proof.
  split; [|reflexivity].
  apply (X5_get_host_slot_is_get_slot demo P1 eq_refl demo_occupancy).
  intros s p Hs. revert s Hs p.
  apply (proj1 (Forall_forall
    (λ s, ∀ p, Slot.player s = Some p →
               Player.id p = Player.id P1 → p = P1)
    _)).
  cbn.
  repeat (apply Forall_cons; split;
          [cbn; intros p [= <-]; first [discriminate | reflexivity]|]).
  by apply Forall_nil.
Defined.

(** ** Match.enqueue *)

(** X6: on a match with a chat, [enqueue] returns and leaves the match as it
    is; the chat is handed the payload with the immune ids, and the discovery
    channel, when [lobby] is set, the directory has it and it has
    subscribers, is handed the same payload with nobody immune; nothing else
    is sent. *)
Theorem X6_enqueue_audiences (E : Match.env) (m : Match.t) (c : Channel.t)
  (data : bytes) (lobby : bool) (immune : list Z) :
  Match.chat m = Some c →
  Match.enqueue data lobby immune E m =
    (Return (), m,
     Enqueue c data immune
       :: match discovery E lobby with
          | Some lchan => [Enqueue lchan data []]
          | None => []
          end)
  ∧ (∀ lchan, discovery E lobby = Some lchan ↔
       lobby = true ∧ Match.channels E !! "#lobby" = Some lchan
       ∧ Channel.players lchan ≠ [])
  ∧ (lobby = false →
     Match.enqueue data lobby immune E m =
       (Return (), m, [Enqueue c data immune])).
Proof.
  intros Hc. rewrite (enqueue_run _ _ _ _ _ _ Hc). split_and!.
  - done.
  - apply discovery_Some.
  - by intros ->.
Qed.

(** A payload for the demo match, its second player immune: the lobby gets
    it too, without the immunity. *)
Lemma X6_enqueue_audiences_witness :
  Match.enqueue [Byte.x07] true [1002] demo_env demo =
  (Return (), demo,
   [Enqueue multi [Byte.x07] [1002]; Enqueue lobby_chan [Byte.x07] []]).
Proof.
  destruct (X6_enqueue_audiences demo_env demo multi [Byte.x07] true [1002]
              eq_refl) as (Hrun & _).
  exact Hrun.
Defined.

(** X7: with [lobby] off, [enqueue_state] is [enqueue] of the encoding that
    carries the password, nobody immune: same sends on a match with a chat,
    same failure on a match without. *)
Theorem X7_enqueue_state_is_enqueue (E : Match.env) (m : Match.t) :
  Match.enqueue_state false E m =
  Match.enqueue (Match.updateMatch E m true) false [] E m.
Proof.
  destruct (Match.chat m) as [c|] eqn:Hc.
  - by rewrite (enqueue_state_run _ _ _ _ Hc), (enqueue_run _ _ _ _ _ _ Hc).
  - by rewrite (enqueue_state_no_chat _ _ _ Hc),
      (enqueue_no_chat _ _ _ _ _ Hc).
Qed.

(** ** Match.start where it fails *)

Lemma start_no_chat (E : Match.env) (m : Match.t) :
  Match.chat m = None →
  (∀ s, s ∈ Match.slots m → startable s) →
  Match.start E m = (Raise (no_chat_failure E), started m, [Breakpoint]).
Proof.
  intros Hc Hocc. unfold Match.start.
  rewrite bind_get, (bind_quiet _ _ _ _ _ _ (start_loop_run E m Hocc)).
  rewrite bind_get. unfold Match.put at 1.
  rewrite (bind_quiet _ _ (λ _ _, _) _ () (started m)) by done.
  rewrite bind_get, bind_ask.
  assert (Hc' : Match.chat (started m) = None) by done.
  by rewrite (bind_Raise _ _ _ _ _ _ _ (enqueue_no_chat _ _ _ _ _ Hc')).
Qed.

(** X8: [start] on a match without a chat fails only at the first broadcast:
    by then the slots have been started and [in_progress] is set, and they
    stay so; the breakpoint is all that was reached, nothing was sent. *)
Theorem X8_start_no_chat_half_done (E : Match.env) (m : Match.t) :
  Match.chat m = None →
  (∀ s, s ∈ Match.slots m → startable s) →
  ∃ (e : string) (m' : Match.t),
    Match.start E m = (Raise e, m', [Breakpoint])
    ∧ Match.in_progress m' = true
    ∧ m' = Match.set_in_progress true (Match.set_slots (Match.slots m') m)
    ∧ ∀ (i : nat) s, Match.slots m !! i = Some s →
        ∃ s', Match.slots m' !! i = Some s'
          ∧ s' = Slot.set_status (Slot.status s') s
          ∧ (Slot.has_player s = true →
             Slot.status s ≠ SlotStatus.no_map →
             Slot.status s' = SlotStatus.playing)
          ∧ (Slot.has_player s = false
             ∨ Slot.status s = SlotStatus.no_map →
             s' = s).
Proof.
  intros Hc Hocc. exists (no_chat_failure E), (started m).
  split_and!; [by apply start_no_chat|done..|].
  intros i s Hi. exists (start_slot s). cbn.
  rewrite list_lookup_fmap, Hi. split; [done|].
  unfold start_slot. split_and!.
  - destruct (_ && _); [done|by destruct s].
  - intros -> Hst. by rewrite bool_decide_false.
  - intros [->|Hst]; [done|]. by rewrite bool_decide_true, andb_false_r.
Qed.

(** The demo match, its chat taken away. *)
Lemma X8_start_no_chat_half_done_witness :
  ∃ (e : string) (m' : Match.t),
    Match.start demo_env (Match.set_chat None demo) =
      (Raise e, m', [Breakpoint])
    ∧ Match.in_progress m' = true.
Proof.
  destruct (X8_start_no_chat_half_done demo_env (Match.set_chat None demo)
              eq_refl demo_no_map_occupied) as (e & m' & Hrun & Hflag & _).
  exists e, m'. split; [exact Hrun|exact Hflag].
Defined.

Lemma foldM_app {A B : Type} (body : A → B → Match.meth A)
  (l1 l2 : list B) (a : A) (E : Match.env) (self : Match.t) :
  Match.foldM body (l1 ++ l2) a E self =
  (Match.foldM body l1 a ≫= Match.foldM body l2) E self.
Proof.
  revert a self. induction l1 as [|b l1 IH]; intros a self.
  - cbn [app Match.foldM]. symmetry. by apply bind_quiet.
  - cbn [app Match.foldM]. unfold mbind, Match.meth_bind.
    destruct (body a b E self) as [[[a'|e] self1] t1]; [|done].
    rewrite IH. unfold mbind, Match.meth_bind.
    destruct (Match.foldM body l1 a' E self1) as [[[a''|e] self2] t2];
      [|done].
    destruct (Match.foldM body l2 a'' E self2) as [[r self3] t3].
    by rewrite app_assoc.
Qed.

(** The loop over the indices of [mid] only, the slots [pre] before and
    [post] after it left alone. *)
Lemma foldM_slots_mid {A : Type} (body : A → nat → Match.meth A)
  (g : Slot.t → Slot.t) (h : A → Slot.t → A) (P : Slot.t → Prop)
  (E : Match.env) (post : list Slot.t) :
  (∀ a i s self, Match.slots self !! i = Some s → P s →
     body a i E self =
     (Return (h a s),
      Match.set_slots (<[i:=g s]> (Match.slots self)) self, [])) →
  ∀ mid pre a self,
    Match.slots self = pre ++ mid ++ post → Forall P mid →
    Match.foldM body (seq (length pre) (length mid)) a E self =
    (Return (fold_left h mid a),
     Match.set_slots (pre ++ (g <$> mid) ++ post) self, []).
Proof.
  intros Hbody. induction mid as [|s mid IH]; intros pre a self Hself HP.
  - cbn in *. by rewrite <- Hself, set_slots_same.
  - apply Forall_cons in HP as [Hs HP]. cbn [length seq Match.foldM].
    assert (Hi : Match.slots self !! length pre = Some s)
      by (rewrite Hself; apply list_lookup_middle; done).
    rewrite (bind_quiet _ _ _ _ _ _ (Hbody a _ s self Hi Hs)).
    rewrite Hself, insert_app_r_alt, Nat.sub_diag by done.
    cbn [insert list_insert app].
    replace (S (length pre)) with (length (pre ++ [g s]))
      by (rewrite length_app; cbn; lia).
    rewrite (IH (pre ++ [g s]) (h a s)); [|by rewrite <- app_assoc|done].
    cbn. by rewrite <- app_assoc.
Qed.

Lemma start_stops_at (E : Match.env) (m : Match.t)
  (pre suf : list Slot.t) (s : Slot.t) :
  Match.slots m = pre ++ s :: suf →
  Slot.status s = SlotStatus.no_map → Slot.player s = None →
  (∀ x, x ∈ pre → startable x) →
  Match.start E m =
  (Raise (AttributeError "id"),
   Match.set_slots ((start_slot <$> pre) ++ s :: suf) m, []).
Proof.
  intros Hm Hst Hp Hpre. unfold Match.start. rewrite bind_get.
  apply bind_Raise. rewrite Hm, length_app, seq_app.
  set (body := λ (_ : list Z) (_ : nat), _). rewrite foldM_app.
  assert (Hbody : ∀ a i x self, Match.slots self !! i = Some x →
    startable x →
    body a i E self =
    (Return (a ++ option_list (exempt x)),
     Match.set_slots (<[i:=start_slot x]> (Match.slots self)) self, [])).
  { intros a i x self Hi Hx. unfold body.
    rewrite (bind_quiet _ _ _ _ _ _ (slot_at _ _ _ _ Hi)).
    rewrite SlotStatus_eqb_decide. unfold start_slot, exempt.
    destruct (Slot.has_player x) eqn:Hhp; cbn [andb].
    - case_bool_decide as Hxs; cbn [negb].
      + destruct Hx as [p Hp']; [done|]. rewrite Hp'.
        cbn [getattr fmap option_fmap option_map option_list].
        by rewrite list_insert_id, set_slots_same by done.
      + rewrite (bind_quiet _ _ _ _ _ _ (set_status_at _ _ _ _ _ Hi)).
        cbn. by rewrite app_nil_r.
    - rewrite bool_decide_false.
      + cbn. by rewrite app_nil_r, list_insert_id, set_slots_same.
      + intros Hxs. unfold Slot.has_player in Hhp. by rewrite Hxs in Hhp. }
  rewrite (bind_quiet _ _ _ _ (fold_left
             (λ a x, a ++ option_list (exempt x)) pre [])
             (Match.set_slots ([] ++ (start_slot <$> pre) ++ s :: suf) m)).
  - cbn [length seq Match.foldM app]. apply bind_Raise.
    assert (Hi : Match.slots
                   (Match.set_slots ((start_slot <$> pre) ++ s :: suf) m)
                   !! (0 + length pre)%nat = Some s).
    { rewrite slots_set_slots, <- (length_fmap start_slot pre).
      by apply list_lookup_middle. }
    unfold body at 1.
    rewrite (bind_quiet _ _ _ _ _ _ (slot_at _ _ _ _ Hi)).
    unfold Slot.has_player. rewrite Hst, Hp. cbn.
    by apply bind_Raise.
  - apply (foldM_slots_mid body start_slot _ startable E (s :: suf)
             Hbody pre [] [] m Hm).
    by apply Forall_forall.
Qed.

(** X9: a [no_map] slot without an occupant stops [start] at that slot with
    the [AttributeError] of reading [id] on [None]: the slots before it have
    been started, the slots from it on are untouched, [in_progress] is as it
    was and nothing has been sent. *)
Theorem X9_start_stops_at_unoccupied (E : Match.env) (m : Match.t)
  (pre suf : list Slot.t) (s : Slot.t) :
  Match.slots m = pre ++ s :: suf →
  Slot.status s = SlotStatus.no_map → Slot.player s = None →
  (∀ x, x ∈ pre → startable x) →
  ∃ m' : Match.t,
    Match.start E m = (Raise (AttributeError "id"), m', [])
    ∧ Match.slots m' = (start_slot <$> pre) ++ s :: suf
    ∧ Match.in_progress m' = Match.in_progress m
    ∧ m' = Match.set_slots (Match.slots m') m.
Proof.
  intros Hm Hst Hp Hpre. eexists. split; [by eapply start_stops_at|done].
Qed.

(** The host is started, then the loop meets a [no_map] slot nobody sits
    in; the third slot is never looked at. *)
Lemma X9_start_stops_at_unoccupied_witness :
  ∃ m' : Match.t,
    Match.start demo_env
      (Match.set_slots
         [slot0; Slot.set_status SlotStatus.no_map Slot.__init__; slot0]
         demo) =
      (Raise (AttributeError "id"), m', [])
    ∧ Match.slots m' =
        [Slot.set_status SlotStatus.playing slot0;
         Slot.set_status SlotStatus.no_map Slot.__init__; slot0]
    ∧ Match.in_progress m' = false.
Proof.
  destruct (X9_start_stops_at_unoccupied demo_env
              (Match.set_slots
                 [slot0; Slot.set_status SlotStatus.no_map Slot.__init__;
                  slot0] demo)
              [slot0] [slot0]
              (Slot.set_status SlotStatus.no_map Slot.__init__)
              eq_refl eq_refl eq_refl) as (m' & Hrun & Hslots & Hflag & _).
  - intros x ->%list_elem_of_singleton. discriminate.
  - exists m'. split; [exact Hrun|]. split; [exact Hslots|exact Hflag].
Defined.

Lemma first_unstartable (l : list Slot.t) :
  Forall startable l
  ∨ ∃ pre s suf, l = pre ++ s :: suf ∧ Forall startable pre
      ∧ Slot.status s = SlotStatus.no_map ∧ Slot.player s = None.
Proof.
  induction l as [|x l IH]; [by left|].
  destruct (decide (Slot.status x = SlotStatus.no_map)) as [Hx|Hx].
  - destruct (Slot.player x) as [p|] eqn:Hp.
    + destruct IH as [IH|(pre & s & suf & -> & Hpre & Hs & Hps)].
      * left. apply Forall_cons. split; [|done]. intros _. by rewrite Hp.
      * right. exists (x :: pre), s, suf. split_and!; [done| |done..].
        apply Forall_cons. split; [|done]. intros _. by rewrite Hp.
    + right. by exists [], x, l.
  - destruct IH as [IH|(pre & s & suf & -> & Hpre & Hs & Hps)].
    + left. apply Forall_cons. split; [|done]. by intros ?.
    + right. exists (x :: pre), s, suf. split_and!; [done| |done..].
      apply Forall_cons. split; [|done]. by intros ?.
Qed.

(** Whatever [start] ends in, it has started the first [k] slots, for some
    [k], and set [in_progress] or left it. *)
Lemma start_state (E : Match.env) (m : Match.t) :
  ∃ (k : nat) (b : bool) r tr,
    Match.start E m =
      (r,
       Match.set_in_progress b
         (Match.set_slots
            ((start_slot <$> take k (Match.slots m)) ++ drop k (Match.slots m))
            m), tr)
    ∧ (b = true ∨ b = Match.in_progress m ∧ tr = []).
Proof.
  destruct (first_unstartable (Match.slots m))
    as [Hall|(pre & s & suf & Hm & Hpre & Hs & Hp)].
  - rewrite Forall_forall in Hall.
    exists (length (Match.slots m)), true.
    rewrite firstn_all, drop_all, app_nil_r.
    destruct (Match.chat m) as [c|] eqn:Hc.
    + do 2 eexists. split; [by apply start_run|by left].
    + do 2 eexists. split; [by apply start_no_chat|by left].
  - rewrite Forall_forall in Hpre.
    exists (length pre), (Match.in_progress m).
    rewrite Hm, take_app_length, drop_app_length.
    do 2 eexists. split; [|by right].
    exact (start_stops_at E m pre suf s Hm Hs Hp Hpre).
Qed.

Lemma started_prefix_lookup (l : list Slot.t) (k i : nat) (s : Slot.t) :
  l !! i = Some s →
  ((start_slot <$> take k l) ++ drop k l) !! i =
  Some (if decide (i < k)%nat then start_slot s else s).
Proof.
  intros Hi. assert (Hlen := lookup_lt_Some _ _ _ Hi).
  destruct (decide (i < k)%nat) as [Hik|Hik].
  - rewrite lookup_app_l by (rewrite length_fmap, length_take; lia).
    by rewrite list_lookup_fmap, lookup_take_lt, Hi by done.
  - rewrite lookup_app_r by (rewrite length_fmap, length_take; lia).
    rewrite length_fmap, length_take, lookup_drop.
    rewrite <- Hi. f_equal. lia.
Qed.

(** X10: whatever [start] ends in, a return or either failure, it has only
    assigned slot statuses and [in_progress]: the slot count and every
    slot's occupant, team, mods and flags are as before, a status either is
    as before or went to [playing] on a slot that passes the [has_player]
    test, [in_progress] is set or as before, and the rest of the match is
    untouched. *)
Theorem X10_start_only_statuses (E : Match.env) (m : Match.t) :
  ∃ r (m' : Match.t) tr,
    Match.start E m = (r, m', tr)
    ∧ m' = Match.set_in_progress (Match.in_progress m')
             (Match.set_slots (Match.slots m') m)
    ∧ (Match.in_progress m' = true
       ∨ Match.in_progress m' = Match.in_progress m ∧ tr = [])
    ∧ length (Match.slots m') = length (Match.slots m)
    ∧ ∀ (i : nat) s, Match.slots m !! i = Some s →
        ∃ s', Match.slots m' !! i = Some s'
          ∧ s' = Slot.set_status (Slot.status s') s
          ∧ (s' = s
             ∨ Slot.has_player s = true
               ∧ Slot.status s' = SlotStatus.playing).
Proof.
  destruct (start_state E m) as (k & b & r & tr & Hrun & Hb).
  eexists r, _, tr. split; [exact Hrun|]. cbn. split_and!; [done..| |].
  - rewrite length_app, length_fmap, length_take, length_drop. lia.
  - intros i s Hi. rewrite (started_prefix_lookup _ k _ _ Hi).
    eexists. split; [done|]. destruct (decide (i < k)%nat).
    + unfold start_slot. destruct (Slot.has_player s) eqn:Hs; cbn [andb].
      * destruct (negb _); [|split; [by destruct s|by left]].
        split; [done|]. by right.
      * split; [by destruct s|by left].
    + split; [by destruct s|by left].
Qed.

(** ** Match.start and Match.unready_players together *)

Lemma start_slot_status (s : Slot.t) :
  Slot.status (start_slot s) =
  if Slot.has_player s && negb (bool_decide (Slot.status s = SlotStatus.no_map))
  then SlotStatus.playing else Slot.status s.
Proof. unfold start_slot. by destruct (_ && _). Qed.

Lemma start_slot_player (s : Slot.t) :
  Slot.player (start_slot s) = Slot.player s.
Proof. unfold start_slot. by destruct (_ && _). Qed.

Lemma start_slot_has_player (s : Slot.t) :
  Slot.has_player (start_slot s) = Slot.has_player s.
Proof.
  unfold start_slot. destruct (Slot.has_player s) eqn:Hs; cbn [andb]; [|done].
  by destruct (negb _).
Qed.

Lemma start_slot_no_map (s : Slot.t) :
  Slot.status (start_slot s) = SlotStatus.no_map ↔
  Slot.status s = SlotStatus.no_map.
Proof.
  rewrite start_slot_status. destruct (Slot.has_player s); cbn [andb]; [|done].
  case_bool_decide; cbn [negb]; [done|]. split; [discriminate|done].
Qed.

Lemma start_slot_idemp (s : Slot.t) : start_slot (start_slot s) = start_slot s.
Proof.
  unfold start_slot at 1. rewrite start_slot_has_player.
  rewrite (bool_decide_ext _ _ (start_slot_no_map s)).
  unfold start_slot. by destruct (_ && _).
Qed.

Lemma exempt_start_slot (s : Slot.t) : exempt (start_slot s) = exempt s.
Proof.
  unfold exempt. rewrite (bool_decide_ext _ _ (start_slot_no_map s)).
  by rewrite start_slot_player.
Qed.

Lemma started_startable (m : Match.t) :
  (∀ s, s ∈ Match.slots m → startable s) →
  ∀ s, s ∈ Match.slots (started m) → startable s.
Proof.
  intros Hocc s'. cbn. rewrite list_elem_of_fmap.
  intros (s & -> & Hs) Hst. rewrite start_slot_player.
  apply (Hocc s Hs). by apply start_slot_no_map.
Qed.

Lemma started_twice (m : Match.t) : started (started m) = started m.
Proof.
  unfold started. cbn. rewrite <- list_fmap_compose.
  rewrite (list_fmap_ext _ start_slot); [done|].
  intros i s _. apply start_slot_idemp.
Qed.

Lemma slots_started (m : Match.t) :
  Match.slots (started m) = start_slot <$> Match.slots m.
Proof. done. Qed.

Lemma omap_exempt_started (ss : list Slot.t) :
  omap exempt (start_slot <$> ss) = omap exempt ss.
Proof.
  induction ss as [|s ss IH]; [done|]. cbn.
  by rewrite exempt_start_slot, IH.
Qed.

(** X11: [start] does not look at [in_progress]: run again on the match a
    first [start] left, it returns again, leaves that match as it is and
    sends the same start signal, with the same ids immune, and the same
    state once more. *)
Theorem X11_start_again (E : Match.env) (m : Match.t) (c : Channel.t) :
  Match.chat m = Some c →
  (∀ s, s ∈ Match.slots m → startable s) →
  ∃ (m' : Match.t) (tr : list event),
    Match.start E m = (Return (), m', tr)
    ∧ Match.start E m' = (Return (), m', tr)
    ∧ tr ≠ [].
Proof.
  intros Hc Hocc. do 2 eexists. split; [by apply start_run|].
  rewrite (start_run E (started m) c); [|done|by apply started_startable].
  rewrite started_twice. split; [|done].
  by rewrite slots_started, omap_exempt_started.
Qed.

Lemma X11_start_again_witness :
  ∃ (m' : Match.t) (tr : list event),
    Match.start demo_env demo = (Return (), m', tr)
    ∧ Match.start demo_env m' = (Return (), m', tr).
Proof.
  destruct (X11_start_again demo_env demo multi eq_refl demo_no_map_occupied)
    as (m' & tr & Hfirst & Hsecond & _).
  exists m', tr. split; [exact Hfirst|exact Hsecond].
Defined.

Lemma unready_slot_same (expected : SlotStatus.t) (s : Slot.t) :
  unready_slot expected s = s ↔
  (Slot.status s = expected → expected = SlotStatus.not_ready).
Proof.
  unfold unready_slot. case_bool_decide as Hs; [|done].
  split.
  - intros Heq _. rewrite <- Hs, <- Heq. done.
  - intros He. rewrite (He Hs) in Hs.
    destruct s as [p st tm md ld sk]. cbn in Hs. by rewrite Hs.
Qed.

Lemma fmap_same {X : Type} (f : X → X) (l : list X) :
  f <$> l = l ↔ ∀ x, x ∈ l → f x = x.
Proof.
  induction l as [|x l IH]; cbn.
  - split; [by intros _ x ?%not_elem_of_nil|done].
  - split.
    + intros [= Hx Hl] y [->|Hy]%elem_of_cons; [done|]. by apply IH.
    + intros Hall. f_equal; [apply Hall; by left|].
      apply IH. intros y Hy. apply Hall. by right.
Qed.

(** X12: [unready_players(expected)] leaves the match exactly as it was if
    and only if no slot has the status [expected], or [expected] is
    [not_ready] itself. *)
Theorem X12_unready_players_noop (E : Match.env) (m : Match.t)
  (expected : SlotStatus.t) :
  Match.unready_players expected E m = (Return (), m, []) ↔
  (expected = SlotStatus.not_ready
   ∨ ∀ s, s ∈ Match.slots m → Slot.status s ≠ expected).
Proof.
  rewrite unready_players_run. split.
  - intros [= Hm]. apply (f_equal Match.slots) in Hm. cbn in Hm.
    destruct (decide (expected = SlotStatus.not_ready)) as [|Hne]; [by left|].
    right. intros s Hs Hst.
    apply (proj1 (fmap_same _ _) Hm) in Hs.
    by apply (proj1 (unready_slot_same expected s) Hs) in Hst.
  - intros Hno.
    assert (Hl : unready_slot expected <$> Match.slots m = Match.slots m).
    { apply fmap_same. intros s Hs. apply unready_slot_same. intros Hst.
      destruct Hno as [|Hno]; [done|]. by destruct (Hno s Hs). }
    by rewrite Hl, set_slots_same.
Qed.

(** X13: after a [start] that returned, every slot that passes the
    [has_player] test is [playing] or [no_map], so an
    [unready_players()] (of [ready]) that follows changes nothing. *)
Theorem X13_unready_after_start (E : Match.env) (m : Match.t)
  (c : Channel.t) :
  Match.chat m = Some c →
  (∀ s, s ∈ Match.slots m → startable s) →
  ∃ (m' : Match.t) (tr : list event),
    Match.start E m = (Return (), m', tr)
    ∧ (∀ s, s ∈ Match.slots m' → Slot.has_player s = true →
         Slot.status s = SlotStatus.playing
         ∨ Slot.status s = SlotStatus.no_map)
    ∧ Match.unready_players SlotStatus.ready E m' = (Return (), m', []).
Proof.
  intros Hc Hocc. do 2 eexists. split; [by apply start_run|].
  assert (Hst : ∀ s, s ∈ Match.slots (started m) →
    Slot.has_player s = true →
    Slot.status s = SlotStatus.playing ∨ Slot.status s = SlotStatus.no_map).
  { intros s'. rewrite slots_started, list_elem_of_fmap.
    intros (s & -> & _). rewrite start_slot_has_player, start_slot_status.
    intros ->. cbn [andb]. case_bool_decide; cbn [negb]; auto. }
  split; [done|].
  assert (Hl : unready_slot SlotStatus.ready <$> Match.slots (started m)
               = Match.slots (started m)).
  { apply fmap_same. intros s Hs. apply unready_slot_same. intros Hready.
    destruct (Hst s Hs) as [Hp|Hp].
    - unfold Slot.has_player. by rewrite Hready.
    - rewrite Hready in Hp. discriminate.
    - rewrite Hready in Hp. discriminate. }
  by rewrite unready_players_run, Hl, set_slots_same.
Qed.

Lemma X13_unready_after_start_witness :
  ∃ (m' : Match.t) (tr : list event),
    Match.start demo_env demo = (Return (), m', tr)
    ∧ Match.unready_players SlotStatus.ready demo_env m' =
        (Return (), m', []).
Proof.
  destruct (X13_unready_after_start demo_env demo multi eq_refl
              demo_no_map_occupied) as (m' & tr & Hrun & _ & Hnoop).
  exists m', tr. split; [exact Hrun|exact Hnoop].
Defined.





(** ** The occupancy invariant *)

(** X15: [start] keeps the occupancy invariant, however it ends: every slot
    of the match it leaves has the occupant it had and passes the
    [has_player] test exactly when it did; so slots that satisfied the
    invariant still do. *)
Theorem X15_start_keeps_occupancy (E : Match.env) (m : Match.t) :
  ∃ r (m' : Match.t) tr,
    Match.start E m = (r, m', tr)
    ∧ (∀ (i : nat) s, Match.slots m !! i = Some s →
         ∃ s', Match.slots m' !! i = Some s'
           ∧ Slot.player s' = Slot.player s
           ∧ Slot.has_player s' = Slot.has_player s)
    ∧ ((∀ s, s ∈ Match.slots m → occupancy s) →
       ∀ s', s' ∈ Match.slots m' → occupancy s').
Proof.
  destruct (start_state E m) as (k & b & r & tr & Hrun & _).
  eexists r, _, tr. split; [exact Hrun|]. cbn.
  assert (Hslot : ∀ (i : nat) s, Match.slots m !! i = Some s →
    ∃ s', ((start_slot <$> take k (Match.slots m))
             ++ drop k (Match.slots m)) !! i = Some s'
      ∧ Slot.player s' = Slot.player s
      ∧ Slot.has_player s' = Slot.has_player s).
  { intros i s Hi. rewrite (started_prefix_lookup _ k _ _ Hi).
    eexists. split; [done|]. destruct (decide (i < k)%nat); [|done].
    by rewrite start_slot_player, start_slot_has_player. }
  split; [done|].
  intros Hocc s' (i & Hi')%list_elem_of_lookup_1.
  assert (Hlt : (i < length (Match.slots m))%nat).
  { apply lookup_lt_Some in Hi'.
    rewrite length_app, length_fmap, length_take, length_drop in Hi'. lia. }
  destruct (lookup_lt_is_Some_2 _ _ Hlt) as [s Hi].
  destruct (Hslot i s Hi) as (s'' & Hi'' & Hp & Hhp).
  rewrite Hi' in Hi''. injection Hi'' as <-.
  unfold occupancy. rewrite Hp, Hhp. apply Hocc.
  by eapply list_elem_of_lookup_2.
Qed.

Lemma unready_slot_player (expected : SlotStatus.t) (s : Slot.t) :
  Slot.player (unready_slot expected s) = Slot.player s.
Proof. unfold unready_slot. by case_bool_decide. Qed.

(** X16: [unready_players(expected)] keeps the occupancy invariant when
    [expected] is a status that passes the [has_player] test: a slot it
    touches had a player by its status before and has one after. *)
Theorem X16_unready_keeps_occupancy (E : Match.env) (m : Match.t)
  (expected : SlotStatus.t) :
  seated expected = true →
  (∀ s, s ∈ Match.slots m → occupancy s) →
  ∃ m' : Match.t,
    Match.unready_players expected E m = (Return (), m', [])
    ∧ ∀ s', s' ∈ Match.slots m' → occupancy s'.
Proof.
  intros Hseat Hocc. eexists. split; [apply unready_players_run|].
  intros s'. rewrite slots_set_slots, list_elem_of_fmap.
  intros (s & -> & Hs). specialize (Hocc s Hs). unfold occupancy in *.
  rewrite unready_slot_player, Hocc. unfold unready_slot.
  case_bool_decide as Hst; [|done].
  unfold Slot.has_player. cbn. rewrite Hst. fold (seated expected).
  by rewrite Hseat.
Qed.

Lemma X16_unready_keeps_occupancy_witness :
  ∃ m' : Match.t,
    Match.unready_players SlotStatus.no_map demo_env demo =
      (Return (), m', [])
    ∧ ∀ s', s' ∈ Match.slots m' → occupancy s'.
Proof.
  apply (X16_unready_keeps_occupancy demo_env demo SlotStatus.no_map eq_refl
           demo_occupancy).
Defined.

(** X17: [unready_players(expected)] with a status that fails the
    [has_player] test ([open], [locked] or [quit]) breaks the occupancy
    invariant at every slot that had that status and obeyed it: the slot is
    [not_ready] afterwards and still has no occupant. *)
Theorem X17_unready_breaks_occupancy (E : Match.env) (m : Match.t)
  (expected : SlotStatus.t) (i : nat) (s : Slot.t) :
  seated expected = false →
  Match.slots m !! i = Some s →
  Slot.status s = expected → occupancy s →
  ∃ (m' : Match.t) (s' : Slot.t),
    Match.unready_players expected E m = (Return (), m', [])
    ∧ Match.slots m' !! i = Some s'
    ∧ Slot.status s' = SlotStatus.not_ready
    ∧ Slot.player s' = None
    ∧ ¬ occupancy s'.
Proof.
  intros Hseat Hi Hst Hocc. do 2 eexists.
  split; [apply unready_players_run|].
  rewrite slots_set_slots, list_lookup_fmap, Hi. cbn.
  split; [done|]. unfold unready_slot. rewrite bool_decide_true by done.
  assert (Hp : Slot.player s = None).
  { destruct (Slot.player s) eqn:Hp; [|done].
    assert (Hhp : Slot.has_player s = true) by (apply Hocc; by rewrite Hp).
    unfold Slot.has_player in Hhp. rewrite Hst in Hhp.
    fold (seated expected) in Hhp. congruence. }
  split_and!; [done..|].
  unfold occupancy. cbn. rewrite Hp. intros [_ Hback].
  by destruct Hback as [? [=]].
Qed.

(** On a fresh match [unready_players(open)] marks the empty slot 0 (and
    every other) [not_ready]. *)
Lemma X17_unready_breaks_occupancy_witness :
  ∃ (m' : Match.t) (s' : Slot.t),
    Match.unready_players SlotStatus.open demo_env Match.__init__ =
      (Return (), m', [])
    ∧ Match.slots m' !! 0%nat = Some s'
    ∧ Slot.status s' = SlotStatus.not_ready
    ∧ Slot.player s' = None.
Proof.
  destruct (X17_unready_breaks_occupancy demo_env Match.__init__
              SlotStatus.open 0 Slot.__init__ eq_refl eq_refl eq_refl)
    as (m' & s' & Hrun & Hi & Hst & Hp & _).
  - split; [by intros [? [=]]|discriminate].
  - exists m', s'. split_and!; [exact Hrun|exact Hi|exact Hst|exact Hp].
Defined.

(** ** Slot.reset, Slot.copy and Slot.empty *)

(** X18: [reset] leaves the slot a fresh slot is, whatever it was: empty,
    open and within the occupancy invariant.  Copying a fresh slot into a
    slot is not a reset: it gives the same slot only if [loaded] and
    [skipped] were already off. *)
Theorem X18_slot_reset_vs_copy (s : Slot.t) :
  Slot.reset s = Slot.__init__
  ∧ Slot.empty (Slot.reset s) = true
  ∧ occupancy (Slot.reset s)
  ∧ (Slot.copy s Slot.__init__ = Slot.reset s ↔
     Slot.loaded s = false ∧ Slot.skipped s = false).
Proof.
  split_and!; [done..| |].
  - split; [by intros [? [=]]|discriminate].
  - unfold Slot.copy, Slot.reset. cbn. split.
    + by intros [= -> ->].
    + by intros [-> ->].
Qed.

(** X19: [copy] takes occupant and status from the same slot, so the copy is
    empty exactly when the source is and obeys the occupancy invariant
    exactly when the source does; copying the same source again changes
    nothing. *)
Theorem X19_slot_copy_occupancy (s other : Slot.t) :
  Slot.empty (Slot.copy s other) = Slot.empty other
  ∧ Slot.has_player (Slot.copy s other) = Slot.has_player other
  ∧ (occupancy (Slot.copy s other) ↔ occupancy other)
  ∧ Slot.copy (Slot.copy s other) other = Slot.copy s other
  ∧ (Slot.copy s other = other ↔
     Slot.loaded s = Slot.loaded other ∧ Slot.skipped s = Slot.skipped other).
Proof.
  split_and!; [done..|].
  destruct s, other. unfold Slot.copy. cbn. split.
  - by intros [= -> ->].
  - by intros [-> ->].
Qed.

(** ** SlotStatus *)

(** X20: the nine members of [SlotStatus] carry pairwise different integers
    (what [@unique] asks for); the eight plain ones are single bits, so the
    and of two different ones is 0; [has_player] is 124, and the statuses
    that pass the test [status & has_player] are exactly [not_ready],
    [ready], [no_map], [playing], [complete] and [has_player] itself. *)
Theorem X20_slot_status_flags :
  (∀ a b, SlotStatus.value a = SlotStatus.value b → a = b)
  ∧ (∀ a b, a ≠ SlotStatus.has_player → b ≠ SlotStatus.has_player →
       a ≠ b → SlotStatus.and a b = 0)
  ∧ (∀ a, a ≠ SlotStatus.has_player →
       ∃ n : Z, 0 ≤ n < 8 ∧ SlotStatus.value a = 2 ^ n)
  ∧ SlotStatus.value SlotStatus.has_player = 124
  ∧ (∀ st, seated st = true ↔
       st ∈ [SlotStatus.not_ready; SlotStatus.ready; SlotStatus.no_map;
             SlotStatus.playing; SlotStatus.complete;
             SlotStatus.has_player]).
Proof.
  split_and!.
  - apply SlotStatus_value_inj.
  - intros [] [] ? ? ?; done.
  - intros [] ?; [by exists 0|by exists 1|by exists 2|by exists 3
                  |by exists 4|by exists 5|by exists 6|by exists 7|done].
  - done.
  - intros []; cbn; split; try done;
      rewrite ?elem_of_cons, ?elem_of_nil; intuition discriminate.
Qed.

(** ** Match.copy *)

(** X21: copies of the configuration compose as assignments do: a second
    [copy] overrides the first whole, copying a match into itself or copying
    the same source twice changes nothing, and after [m.copy(other)] a
    [copy] back gives [other] nothing new. *)
Theorem X21_copy_composes (m a b : Match.t) :
  Match.copy (Match.copy m a) b = Match.copy m b
  ∧ Match.copy m m = m
  ∧ Match.copy (Match.copy m a) a = Match.copy m a
  ∧ Match.copy a (Match.copy m a) = a.
Proof.
  split_and!; [done| |done|]; [by destruct m|by destruct a].
Qed.

(** ** Match.url *)

Lemma pretty_N_go_slashless (x : N) (s : string) :
  slashless s → slashless (pretty_N_go x s).
Proof.
  revert s. induction (N.lt_wf_0 x) as [x _ IH]; intros s Hs.
  assert (x = 0 ∨ 0 < x)%N as [->|Hx] by lia.
  - by rewrite pretty_N_go_0.
  - rewrite pretty_N_go_step by done. apply IH.
    + by apply N.div_lt.
    + split; [|done]. unfold pretty_N_char. by repeat case_match.
Qed.

Lemma pretty_Z_slashless (z : Z) : slashless (pretty z).
Proof.
  assert (HN : ∀ n : N, slashless (pretty n)).
  { intros n. unfold pretty, pretty_N. case_decide; [done|].
    by apply pretty_N_go_slashless. }
  destruct z as [|p|p]; [done|apply HN|]. split; [done|apply HN].
Qed.

Lemma split_at_slash (a b p q : string) :
  slashless a → slashless b →
  a +:+ String "/"%char p = b +:+ String "/"%char q → a = b ∧ p = q.
Proof.
  revert b. induction a as [|c a IH]; intros [|d b]; cbn.
  - by intros _ _ [= ->].
  - intros _ [Hd _] [= Hc _]. by destruct Hd.
  - intros [Hc _] _ [= Hd _]. by destruct Hc.
  - intros [_ Ha] [_ Hb] [= -> Hrest].
    destruct (IH b Ha Hb Hrest) as [-> ->]. done.
Qed.

(** X22: the invitation url names the match id and the password without
    ambiguity: two matches have the same url exactly when they have the same
    id and the same password (the decimal id has no slash in it, so the
    first slash after the scheme ends it, whatever the password holds). *)
Theorem X22_url_injective (m1 m2 : Match.t) :
  Match.url m1 = Match.url m2 ↔
  Match.id m1 = Match.id m2 ∧ Match.passwd m1 = Match.passwd m2.
Proof.
  unfold Match.url. split.
  - cbn. intros [= Heq].
    apply split_at_slash in Heq as [Hid Hpw];
      [|apply pretty_Z_slashless..].
    split; [|done]. by apply (inj pretty).
  - by intros [-> ->].
Qed.

(** ** The lookups across a state change *)

Lemma list_find_related {X : Type} (P : X → Prop) `{∀ x, Decision (P x)}
  (R : X → X → Prop) (l l' : list X) :
  (∀ x y, R x y → P x ↔ P y) → Forall2 R l l' →
  fst <$> list_find P l = fst <$> list_find P l'.
Proof.
  intros HR. induction 1 as [|x y l l' Hxy _ IH]; [done|]. cbn.
  destruct (HR x y Hxy) as [Hto Hfrom].
  destruct (decide (P x)), (decide (P y)); try tauto.
  destruct (list_find P l) as [[i a]|], (list_find P l') as [[j b]|];
    cbn in *; congruence.
Qed.

Lemma fmap_player_related (R : Slot.t → Slot.t → Prop)
  (l l' : list Slot.t) :
  (∀ x y, R x y → Slot.player y = Slot.player x) → Forall2 R l l' →
  Slot.player <$> l' = Slot.player <$> l.
Proof.
  intros HR. induction 1 as [|x y l l' Hxy _ IH]; [done|].
  cbn. by rewrite (HR x y Hxy), IH.
Qed.

Lemma get_slot_id_fst (m : Match.t) (p : option Player.t) :
  Match.get_slot_id m p =
  fst <$> list_find (λ s, p = Slot.player s) (Match.slots m).
Proof.
  unfold Match.get_slot_id. rewrite get_slot_id_from_find.
  by destruct (list_find _ _) as [[]|].
Qed.

Lemma get_free_fst (m : Match.t) :
  Match.get_free m =
  fst <$> list_find (λ s, Slot.status s = SlotStatus.open) (Match.slots m).
Proof.
  unfold Match.get_free. rewrite get_free_from_find.
  by destruct (list_find _ _) as [[]|].
Qed.

(** Who sits where, and which slots are open, is the same in two slot
    lists: the three lookups answer the same. *)
Lemma lookups_related (m m' : Match.t) :
  Forall2 (λ s s', Slot.player s' = Slot.player s
                   ∧ (Slot.status s = SlotStatus.open ↔
                      Slot.status s' = SlotStatus.open))
    (Match.slots m) (Match.slots m') →
  (∀ p, Match.get_slot_id m' p = Match.get_slot_id m p)
  ∧ (∀ p, Match.__contains__ m' p = Match.__contains__ m p)
  ∧ Match.get_free m' = Match.get_free m.
Proof.
  intros Hrel. split_and!.
  - intros p. rewrite !get_slot_id_fst. symmetry.
    eapply list_find_related; [|exact Hrel].
    intros x y [Hp _]. cbn. by rewrite Hp.
  - intros p. unfold Match.__contains__.
    by rewrite (fmap_player_related _ _ _ (λ x y H, proj1 H) Hrel).
  - rewrite !get_free_fst. symmetry.
    eapply list_find_related; [|exact Hrel]. by intros x y [_ Ho].
Qed.

Lemma start_slot_open (s : Slot.t) :
  Slot.status s = SlotStatus.open ↔
  Slot.status (start_slot s) = SlotStatus.open.
Proof.
  rewrite start_slot_status.
  destruct (Slot.has_player s) eqn:Hs; cbn [andb]; [|done].
  destruct (negb _); [|done]. split; [|discriminate].
  intros Ho. unfold Slot.has_player in Hs. by rewrite Ho in Hs.
Qed.

(** X23: however [start] ends, it has moved nobody and neither opened nor
    closed a slot: [get_slot_id], the membership test and [get_free] answer
    on the match it leaves what they answered before. *)
Theorem X23_start_keeps_lookups (E : Match.env) (m : Match.t) :
  ∃ r (m' : Match.t) tr,
    Match.start E m = (r, m', tr)
    ∧ (∀ p, Match.get_slot_id m' p = Match.get_slot_id m p)
    ∧ (∀ p, Match.__contains__ m' p = Match.__contains__ m p)
    ∧ Match.get_free m' = Match.get_free m.
Proof.
  destruct (start_state E m) as (k & b & r & tr & Hrun & _).
  eexists r, _, tr. split; [exact Hrun|].
  apply lookups_related. cbn.
  apply Forall2_same_length_lookup_2.
  - rewrite length_app, length_fmap, length_take, length_drop. lia.
  - intros i s s' Hi. rewrite (started_prefix_lookup _ k _ _ Hi).
    intros [= <-]. destruct (decide (i < k)%nat); [|done].
    split; [apply start_slot_player|apply start_slot_open].
Qed.

(** X24: [unready_players(expected)] moves nobody: [get_slot_id] and the
    membership test answer as before.  [get_free] answers as before unless
    [expected] is [open]; [unready_players(open)] leaves no open slot, and
    [get_free] then answers [None]. *)
Theorem X24_unready_keeps_lookups (E : Match.env) (m : Match.t)
  (expected : SlotStatus.t) :
  ∃ m' : Match.t,
    Match.unready_players expected E m = (Return (), m', [])
    ∧ (∀ p, Match.get_slot_id m' p = Match.get_slot_id m p)
    ∧ (∀ p, Match.__contains__ m' p = Match.__contains__ m p)
    ∧ (expected ≠ SlotStatus.open → Match.get_free m' = Match.get_free m)
    ∧ (expected = SlotStatus.open → Match.get_free m' = None).
Proof.
  eexists. split; [apply unready_players_run|].
  set (m' := Match.set_slots _ m).
  assert (Hplayers : Forall2 (λ s s', Slot.player s' = Slot.player s)
                       (Match.slots m) (Match.slots m')).
  { unfold m'. rewrite slots_set_slots. apply Forall2_fmap_r.
    apply Forall_Forall2_diag, Forall_forall. intros s _. cbn.
    apply unready_slot_player. }
  split_and!.
  - intros p. rewrite !get_slot_id_fst. symmetry.
    eapply list_find_related; [|exact Hplayers].
    intros x y Hp. cbn in *. by rewrite Hp.
  - intros p. unfold Match.__contains__.
    by rewrite (fmap_player_related _ _ _ (λ x y H, H) Hplayers).
  - intros Hne. apply lookups_related. unfold m'.
    rewrite slots_set_slots. apply Forall2_fmap_r.
    apply Forall_Forall2_diag, Forall_forall. intros s _. cbn.
    split; [apply unready_slot_player|]. unfold unready_slot.
    case_bool_decide as Hs; [|done]. cbn. split; [congruence|discriminate].
  - intros ->. rewrite get_free_fst, fmap_None, list_find_None.
    unfold m'. rewrite slots_set_slots, Forall_fmap, Forall_forall.
    intros s _. cbn. unfold unready_slot. by case_bool_decide.
Qed.
